(** * Turn-taking controller of the voice agent (Twilio Media Streams)

    Shallow embedding of [twilioStream.js] (the stream handler, its
    noise gate and its playback loop), of the constants of [config.js]
    it uses and of the tool loop [nehaResponseWithHistory] of
    [pipeline.js], followed by the properties of the design document
    that were checked against them. *)

From Stdlib Require Import ZArith NArith Lia Bool String Ascii.
From Stdlib.Strings Require Import Byte.
From stdpp Require Import base tactics option list sorting.
From Equations Require Import Equations.

Local Open Scope N_scope.

(** ** JavaScript strings and the builtins the handler calls

    A JavaScript string is a sequence of UTF-16 code units; [length],
    [trim], [split] and [Set.prototype.has] all work on code units. *)

Abbreviation jsstring := (list N).
Abbreviation Buffer := (list byte).

Module JS.

(** Source literals are UTF-8 in the file; [lit] turns one into the
    code units the engine holds. *)
Definition utf8_feed (st : list N * N * nat) (b : N) : list N * N * nat :=
  let '(out, cp, need) := st in
  match need with
  | O =>
      if b <? 128 then (b :: out, 0, O)
      else if b <? 224 then (out, N.land b 31, 1%nat)
      else if b <? 240 then (out, N.land b 15, 2%nat)
      else (out, N.land b 7, 3%nat)
  | S O =>
      let cp' := cp * 64 + N.land b 63 in
      if cp' <? 65536 then (cp' :: out, 0, O)
      else
        let v := cp' - 65536 in
        ((56320 + N.land v 1023) :: (55296 + N.shiftr v 10) :: out, 0, O)
  | S n => (out, cp * 64 + N.land b 63, n)
  end.

Definition lit (s : string) : jsstring :=
  let bytes := map N_of_ascii (list_ascii_of_string s) in
  let '(out, _, _) := fold_left utf8_feed bytes ([], 0, O) in
  rev out.

(** [WhiteSpace] and [LineTerminator] of ECMA-262: what [\s] matches
    and what [trim] strips. *)
Definition isWhiteSpace (c : N) : bool :=
  match c with
  | 9 | 10 | 11 | 12 | 13 | 32 | 160 | 5760
  | 8232 | 8233 | 8239 | 8287 | 12288 | 65279 => true
  | _ => (8192 <=? c) && (c <=? 8202)
  end.

Fixpoint trimStart (s : jsstring) : jsstring :=
  match s with
  | c :: r => if isWhiteSpace c then trimStart r else s
  | [] => []
  end.

Definition trimEnd (s : jsstring) : jsstring := rev (trimStart (rev s)).

Definition trim (s : jsstring) : jsstring := trimEnd (trimStart s).

(** [s.replace(/\s+/g, " ")]: every maximal run of white space
    becomes one space. [inRun] says the previous unit was white. *)
Fixpoint replaceRuns (inRun : bool) (s : jsstring) : jsstring :=
  match s with
  | [] => []
  | c :: r =>
      if isWhiteSpace c
      then (if inRun then replaceRuns true r else 32 :: replaceRuns true r)
      else c :: replaceRuns false r
  end.

Definition replaceSpaces (s : jsstring) : jsstring := replaceRuns false s.

(** [s.split(/\s+/)]: the pieces between the runs, empty pieces at
    either end included; [cur] is the piece being read, reversed. *)
Fixpoint splitRuns (cur : jsstring) (inRun : bool) (s : jsstring)
  : list jsstring :=
  match s with
  | [] => [rev cur]
  | c :: r =>
      if isWhiteSpace c
      then (if inRun then splitRuns [] true r
            else rev cur :: splitRuns [] true r)
      else splitRuns (c :: cur) false r
  end.

Definition splitSpaces (s : jsstring) : list jsstring :=
  splitRuns [] false s.

(** A string is truthy when it is not empty. *)
Definition truthy (s : jsstring) : bool :=
  match s with [] => false | _ => true end.

(** [Set.prototype.has] on strings. *)
Definition has (set : list jsstring) (s : jsstring) : bool :=
  bool_decide (s ∈ set).

(** [s.replace(/[chars]/g, "")]: every unit of the class is removed. *)
Definition removeAll (class : list N) (s : jsstring) : jsstring :=
  filter (λ c, c ∉ class) s.

(** *** Plain objects used as string-keyed tables

    The own properties of an object born as [{}], in creation order.
    A value held by such a table is a number or a string that does
    not read as a number. *)
Inductive value := Num (n : N) | NotNumeric.

Abbreviation object := (list (jsstring * value)).

Fixpoint getOwn (o : object) (k : jsstring) : option value :=
  match o with
  | [] => None
  | (k', v) :: r => if decide (k' = k) then Some v else getOwn r k
  end.

(** Writing an existing property keeps its place; a new one goes last. *)
Fixpoint setOwn (o : object) (k : jsstring) (v : value) : object :=
  match o with
  | [] => [(k, v)]
  | (k', v') :: r =>
      if decide (k' = k) then (k, v) :: r else (k', v') :: setOwn r k v
  end.

(** What [{}] inherits from [Object.prototype]: function-valued data
    properties, and the accessor [__proto__]. *)
Definition objectPrototypeMethods : list jsstring :=
  map lit [ "constructor"; "__defineGetter__"; "__defineSetter__";
            "hasOwnProperty"; "__lookupGetter__"; "__lookupSetter__";
            "isPrototypeOf"; "propertyIsEnumerable"; "toString";
            "valueOf"; "toLocaleString" ]%string.

Definition protoAccessor : jsstring := lit "__proto__".

(** [o[k] = (o[k] || 0) + 1]. An own number is incremented. An own
    string stays a string ([s + 1] appends). An inherited function is
    truthy, so [f + 1] is a string and becomes an own property. The
    setter of [__proto__] ignores a string: nothing is stored. *)
Definition increment (o : object) (k : jsstring) : object :=
  match getOwn o k with
  | Some (Num n) => setOwn o k (Num (n + 1))
  | Some NotNumeric => setOwn o k NotNumeric
  | None =>
      if decide (k = protoAccessor) then o
      else if decide (k ∈ objectPrototypeMethods) then setOwn o k NotNumeric
      else setOwn o k (Num 1)
  end.

(** Property order of [Object.values] and [Object.entries]: array
    indices first, ascending, then the other keys as created. *)
Definition digit (c : N) : option N :=
  if (48 <=? c) && (c <=? 57) then Some (c - 48) else None.

Fixpoint digits (acc : N) (s : jsstring) : option N :=
  match s with
  | [] => Some acc
  | c :: r =>
      match digit c with
      | Some d => digits (acc * 10 + d) r
      | None => None
      end
  end.

Definition arrayIndex (k : jsstring) : option N :=
  match k with
  | [] => None
  | [48] => Some 0
  | 48 :: _ => None
  | _ =>
      match digits 0 k with
      | Some n => if n <=? 4294967294 then Some n else None
      | None => None
      end
  end.

Definition indexOf (e : jsstring * value) : N :=
  default 0 (arrayIndex e.1).

Definition indexLe (a b : jsstring * value) : Prop :=
  indexOf a ≤ indexOf b.

#[global] Instance indexLe_dec : RelDecision indexLe.
Proof. intros a b. unfold indexLe. apply _. Defined.

Definition entries (o : object) : object :=
  merge_sort indexLe
    (filter (λ e, is_Some (arrayIndex e.1)) o)
  ++ filter (λ e, ¬ is_Some (arrayIndex e.1)) o.

Definition values (o : object) : list value := (entries o).*2.

(** [Math.max(...vs)]: minus infinity for no argument, NaN as soon as
    one argument does not read as a number. *)
Inductive number := Finite (n : N) | NaN | NegInfinity.

Definition maxStep (acc : number) (v : value) : number :=
  match acc, v with
  | NaN, _ | _, NotNumeric => NaN
  | NegInfinity, Num n => Finite n
  | Finite m, Num n => Finite (N.max m n)
  end.

Definition mathMax (vs : list value) : number :=
  fold_left maxStep vs NegInfinity.

(** [v === m]. *)
Definition strictEq (v : value) (m : number) : bool :=
  match v, m with
  | Num n, Finite k => bool_decide (n = k)
  | _, _ => false
  end.

(** Code units that no case mapping touches: Basic Latin other than
    the capital letters, and the Devanagari block. *)
Definition caseless (c : N) : bool :=
  (c <? 65) || ((90 <? c) && (c <? 128)) || ((2304 <=? c) && (c <=? 2431)).

(** [x | 0]. *)
Definition ToInt32 (z : Z) : Z :=
  ((z + 2 ^ 31) mod 2 ^ 32 - 2 ^ 31)%Z.

End JS.

(** ** config.js *)

Definition TWILIO_SAMPLE_RATE : Z := 8000.
Definition TWILIO_MEDIA_CHUNK_MS : Z := 20.
Definition TWILIO_MULAW_BYTES_PER_CHUNK : Z :=
  JS.ToInt32 (TWILIO_SAMPLE_RATE * TWILIO_MEDIA_CHUNK_MS ÷ 1000).

(** ** twilioStream.js *)

(** What the host gives the module: [String.prototype.toLowerCase],
    whose Unicode case tables are the engine's and of which only this
    much is used, that a string without cased letters is left as it
    is; and the environment variable read by [config.js]. *)
Class Host := {
  toLowerCase : jsstring → jsstring;
  toLowerCase_caseless :
    ∀ s, Forall (λ c, JS.caseless c = true) s → toLowerCase s = s;
  DEEPGRAM_API_KEY : jsstring;
}.

Definition FILLER_PHRASES : list jsstring :=
  map JS.lit [
    "sir"; "ji"; "जी"; "है"; "तो"; "ok"; "ठीक"; "उम"; "ओके"; "um"; "uh"; "thank you"; "thanks";
    "हाँ"; "हां"; "ना"; "no"; "yes"; "the"; "this"; "that"; "इसके बारे में"; "बारे में";
    "सर"; "सिर"; "जी जी"; "ji ji"; "sir sir"; "ok ok"; "ठीक है"; "theek hai"; "मुझे मुझे है"; "मुझे है";
    "right"; "so"; "it"; "i"; "a"; "the"
  ]%string.

Definition MIN_REAL_LENGTH : nat := 12.

(** The class [[।?!.]] of both replace calls. *)
Definition PUNCTUATION : list N := JS.lit "।?!.".

Section NoiseGate.
Context `{Host}.

Definition isFillerOnly (text : jsstring) : bool :=
  let t := toLowerCase (JS.trim (JS.replaceSpaces text)) in
  if bool_decide (length t < MIN_REAL_LENGTH)%nat then true else
  let words := filter (λ w, JS.truthy w) (JS.splitSpaces t) in
  if bool_decide (length words = 1%nat) && JS.has FILLER_PHRASES t then true else
  let allFiller :=
    forallb (λ w, JS.has FILLER_PHRASES w
                  || JS.has FILLER_PHRASES (JS.removeAll PUNCTUATION w)) words in
  if allFiller && bool_decide (length words ≤ 4)%nat then true else
  false.

(** The words of [isRepetitiveNoise] and the key each one counts under. *)
Definition noiseWords (text : jsstring) : list jsstring :=
  filter (λ w, JS.truthy w)
    (JS.splitSpaces (JS.trim (JS.replaceSpaces text))).

Definition noiseKey (w : jsstring) : jsstring :=
  JS.removeAll PUNCTUATION (toLowerCase w).

(** [max / words.length >= 0.6] compares doubles. For counts below
    2^50 the quotient rounds to at least the double 0.6 exactly when
    [5 * max >= 3 * words.length], which is the test written here; a
    string cannot have that many words. *)
Definition isRepetitiveNoise (text : jsstring) : bool :=
  let words := noiseWords text in
  if bool_decide (length words < 3)%nat then false else
  let count := fold_left (λ count w, JS.increment count (noiseKey w)) words [] in
  let max := JS.mathMax (JS.values count) in
  let repeatedWord :=
    fst <$> find (λ e, JS.strictEq e.2 max) (JS.entries count) in
  match max with
  | JS.Finite m =>
      if (3 <=? m) && (3 * N.of_nat (length words) <=? 5 * m) then
        match repeatedWord with
        | Some w =>
            if JS.has FILLER_PHRASES w || bool_decide (length w ≤ 3)%nat
            then true else false
        | None => false
        end
      else false
  | _ => false
  end.

Definition shouldIgnoreTranscript (text : jsstring) : bool :=
  if negb (JS.truthy text)
     || bool_decide (length (JS.trim text) < MIN_REAL_LENGTH)%nat then true else
  if isFillerOnly text then true else
  if isRepetitiveNoise text then true else
  false.

End NoiseGate.

(** A host whose [toLowerCase] is the Basic Latin part of the case
    tables: it agrees with the engine on strings of Basic Latin and
    Devanagari, which is what the concrete runs below are made of. *)
Definition latinLower (c : N) : N :=
  if (65 <=? c) && (c <=? 90) then c + 32 else c.

Lemma latinLower_caseless (s : jsstring) :
  Forall (λ c, JS.caseless c = true) s → map latinLower s = s.
Proof.
  induction 1 as [|c s Hc _ IH]; [reflexivity|]. cbn. rewrite IH. f_equal.
  unfold latinLower, JS.caseless in *.
  destruct (65 <=? c) eqn:H1, (c <=? 90) eqn:H2; cbn; try reflexivity.
  apply N.leb_le in H1, H2.
  destruct (c <? 65) eqn:H3; [apply N.ltb_lt in H3; lia|].
  destruct (90 <? c) eqn:H4; [apply N.ltb_lt in H4; lia|].
  destruct (2304 <=? c) eqn:H5; [apply N.leb_le in H5; lia|].
  discriminate.
Qed.

Definition latinHost : Host :=
  {| toLowerCase := map latinLower;
     toLowerCase_caseless := latinLower_caseless;
     DEEPGRAM_API_KEY := JS.lit "dg-key" |}.

(** *** The connection handler [handleTwilioStream]

    [Session] holds the variables the handler closes over, then what
    the run time keeps for it: the state of the caller's socket, the
    activations of [processTranscript] and of the greeting that are
    suspended at an [await], and a supply of handles. *)

Inductive Role := user | assistant.

Record Message := { role : Role; content : jsstring }.

(** Where an activation of [processTranscript] is suspended. *)
Inductive Awaiting :=
| AwaitReply            (* await nehaResponseWithHistory(messages) *)
| AwaitSpeech           (* await textToSpeech(reply) *)
| AwaitMulaw            (* await mp3ToMulaw8k(mp3Buffer) *)
| AwaitFallbackSpeech   (* await textToSpeech(fallback) *)
| AwaitFallbackMulaw.   (* await mp3ToMulaw8k(mp3Buffer), in the catch *)

(** Where the greeting started by the "start" message is suspended. *)
Inductive GreetingAwaiting := GreetingSpeech | GreetingMulaw.

Record Session := {
  streamSid : option jsstring;
  deepgramLive : option nat;
  keepAliveInterval : option nat;
  messages : list Message;
  isPlaying : bool;
  pendingTranscript : jsstring;
  ignoreTranscriptsUntil : Z;
  readyState : Z;
  inFlight : list Awaiting;
  greetings : list GreetingAwaiting;
  handles : nat;
}.

Definition initial : Session :=
  {| streamSid := None; deepgramLive := None; keepAliveInterval := None;
     messages := []; isPlaying := false; pendingTranscript := [];
     ignoreTranscriptsUntil := 0; readyState := 1; inFlight := [];
     greetings := []; handles := 0 |}.

Definition set_streamSid (v : option jsstring) (s : Session) : Session :=
  {| streamSid := v; deepgramLive := deepgramLive s;
     keepAliveInterval := keepAliveInterval s; messages := messages s;
     isPlaying := isPlaying s; pendingTranscript := pendingTranscript s;
     ignoreTranscriptsUntil := ignoreTranscriptsUntil s;
     readyState := readyState s; inFlight := inFlight s;
     greetings := greetings s; handles := handles s |}.

Definition set_deepgramLive (v : option nat) (s : Session) : Session :=
  {| streamSid := streamSid s; deepgramLive := v;
     keepAliveInterval := keepAliveInterval s; messages := messages s;
     isPlaying := isPlaying s; pendingTranscript := pendingTranscript s;
     ignoreTranscriptsUntil := ignoreTranscriptsUntil s;
     readyState := readyState s; inFlight := inFlight s;
     greetings := greetings s; handles := handles s |}.

Definition set_keepAliveInterval (v : option nat) (s : Session) : Session :=
  {| streamSid := streamSid s; deepgramLive := deepgramLive s;
     keepAliveInterval := v; messages := messages s;
     isPlaying := isPlaying s; pendingTranscript := pendingTranscript s;
     ignoreTranscriptsUntil := ignoreTranscriptsUntil s;
     readyState := readyState s; inFlight := inFlight s;
     greetings := greetings s; handles := handles s |}.

Definition set_messages (v : list Message) (s : Session) : Session :=
  {| streamSid := streamSid s; deepgramLive := deepgramLive s;
     keepAliveInterval := keepAliveInterval s; messages := v;
     isPlaying := isPlaying s; pendingTranscript := pendingTranscript s;
     ignoreTranscriptsUntil := ignoreTranscriptsUntil s;
     readyState := readyState s; inFlight := inFlight s;
     greetings := greetings s; handles := handles s |}.

Definition set_isPlaying (v : bool) (s : Session) : Session :=
  {| streamSid := streamSid s; deepgramLive := deepgramLive s;
     keepAliveInterval := keepAliveInterval s; messages := messages s;
     isPlaying := v; pendingTranscript := pendingTranscript s;
     ignoreTranscriptsUntil := ignoreTranscriptsUntil s;
     readyState := readyState s; inFlight := inFlight s;
     greetings := greetings s; handles := handles s |}.

Definition set_pendingTranscript (v : jsstring) (s : Session) : Session :=
  {| streamSid := streamSid s; deepgramLive := deepgramLive s;
     keepAliveInterval := keepAliveInterval s; messages := messages s;
     isPlaying := isPlaying s; pendingTranscript := v;
     ignoreTranscriptsUntil := ignoreTranscriptsUntil s;
     readyState := readyState s; inFlight := inFlight s;
     greetings := greetings s; handles := handles s |}.

Definition set_ignoreTranscriptsUntil (v : Z) (s : Session) : Session :=
  {| streamSid := streamSid s; deepgramLive := deepgramLive s;
     keepAliveInterval := keepAliveInterval s; messages := messages s;
     isPlaying := isPlaying s; pendingTranscript := pendingTranscript s;
     ignoreTranscriptsUntil := v;
     readyState := readyState s; inFlight := inFlight s;
     greetings := greetings s; handles := handles s |}.

Definition set_readyState (v : Z) (s : Session) : Session :=
  {| streamSid := streamSid s; deepgramLive := deepgramLive s;
     keepAliveInterval := keepAliveInterval s; messages := messages s;
     isPlaying := isPlaying s; pendingTranscript := pendingTranscript s;
     ignoreTranscriptsUntil := ignoreTranscriptsUntil s;
     readyState := v; inFlight := inFlight s;
     greetings := greetings s; handles := handles s |}.

Definition set_inFlight (v : list Awaiting) (s : Session) : Session :=
  {| streamSid := streamSid s; deepgramLive := deepgramLive s;
     keepAliveInterval := keepAliveInterval s; messages := messages s;
     isPlaying := isPlaying s; pendingTranscript := pendingTranscript s;
     ignoreTranscriptsUntil := ignoreTranscriptsUntil s;
     readyState := readyState s; inFlight := v;
     greetings := greetings s; handles := handles s |}.

Definition set_greetings (v : list GreetingAwaiting) (s : Session) : Session :=
  {| streamSid := streamSid s; deepgramLive := deepgramLive s;
     keepAliveInterval := keepAliveInterval s; messages := messages s;
     isPlaying := isPlaying s; pendingTranscript := pendingTranscript s;
     ignoreTranscriptsUntil := ignoreTranscriptsUntil s;
     readyState := readyState s; inFlight := inFlight s;
     greetings := v; handles := handles s |}.

Definition set_handles (v : nat) (s : Session) : Session :=
  {| streamSid := streamSid s; deepgramLive := deepgramLive s;
     keepAliveInterval := keepAliveInterval s; messages := messages s;
     isPlaying := isPlaying s; pendingTranscript := pendingTranscript s;
     ignoreTranscriptsUntil := ignoreTranscriptsUntil s;
     readyState := readyState s; inFlight := inFlight s;
     greetings := greetings s; handles := v |}.

(** What a handler does to the outside, in the order it does it.
    Logging is left out. *)
Inductive TwilioOut :=
| MediaOut (sid : jsstring) (payload : Buffer)
    (* { event: "media", streamSid, media: { payload: base64 of payload } } *)
| ErrorOut.
    (* { event: "error", message: "Server missing STT config" } *)

Inductive Effect :=
| TwilioSend (obj : TwilioOut)               (* twilioWs.send(JSON.stringify(obj)) *)
| DeepgramListen (conn : nat)                (* deepgram.listen.live({...}) *)
| DeepgramSend (conn : nat) (base64 : jsstring)
    (* deepgramLive.send(Buffer.from(base64, "base64")) *)
| DeepgramKeepAlive (conn : nat)
| DeepgramRequestClose (conn : nat)
| SetInterval (handle : nat)
| ClearInterval (handle : nat)
| CallGenerate (history : list Message)      (* nehaResponseWithHistory(messages) *)
| CallTextToSpeech (text : jsstring)         (* textToSpeech(text) *)
| CallMp3ToMulaw (mp3 : Buffer).             (* mp3ToMulaw8k(mp3Buffer) *)

(** What can happen to a connection: a message or an event of the
    caller's socket, an event of the recognition connection, the
    keep-alive timer, or the settling of a promise an activation
    awaits. [now] is what [Date.now()] answers during the handler. *)
Inductive TwilioMsg :=
| Start (sid : option jsstring)       (* msg.start?.streamSid ?? null *)
| Media (payload : option jsstring)   (* msg.media?.payload *)
| Stop
| OtherEvent.

Inductive Settled :=
| Reply (text : jsstring)
| Audio (bytes : Buffer)
| Rejected.

Inductive Event :=
| TwilioMessage (msg : option TwilioMsg)   (* None: JSON.parse throws *)
| TwilioClose
| TwilioError
| TwilioReadyState (n : Z)
| DeepgramOpen
| DeepgramClose
| DeepgramError
| Transcript (transcript : jsstring) (is_final : bool)
| UtteranceEnd (now : Z)
| Metadata
| KeepAliveTimer (ready : bool)
| Settle (i : nat) (outcome : Settled) (now : Z)
| GreetingSettle (i : nat) (outcome : Settled).

Definition GREETING_TEXT : jsstring :=
  JS.lit "Hello, mai Siya Ayurveda se Neha baat kar rahi hoon. Mai aapki kaisi sahayata kar sakti hoon?".

Definition FALLBACK_TEXT : jsstring :=
  JS.lit "Sorry, I had a problem. Please try again.".

Definition CHUNK : nat := Z.to_nat TWILIO_MULAW_BYTES_PER_CHUNK.

Definition sendToTwilio (obj : TwilioOut) (s : Session) : list Effect :=
  if decide (readyState s ≠ 1%Z) then [] else [TwilioSend obj].

Definition sendMediaToTwilio (payload : Buffer) (s : Session) : list Effect :=
  match streamSid s with
  | Some sid =>
      if negb (JS.truthy sid) then [] else sendToTwilio (MediaOut sid payload) s
  | None => []
  end.

(** The loop that plays a buffer, written three times in the source:
    [for (let i = 0; i < mulawBuffer.length; i += CHUNK) { ... }],
    here from index [i] on. *)
Equations playFrom (s : Session) (mulawBuffer : Buffer) (i : nat)
  : list Effect by wf (length mulawBuffer - i)%nat lt :=
playFrom s mulawBuffer i with decide (i < length mulawBuffer)%nat := {
  | right _ => []
  | left _ =>
      let chunk := take CHUNK (drop i mulawBuffer) in
      if decide (length chunk = 0%nat) then [] else
      let payload :=
        if decide (length chunk < CHUNK)%nat
        then chunk ++ replicate (CHUNK - length chunk) xff
        else chunk in
      sendMediaToTwilio payload s ++ playFrom s mulawBuffer (i + CHUNK)
  }.
Next Obligation.
  intros. change CHUNK with 160%nat. lia.
Qed.

Definition play (s : Session) (mulawBuffer : Buffer) : list Effect :=
  playFrom s mulawBuffer 0.

Definition cleanup (s : Session) : Session * list Effect :=
  let '(s, e1) :=
    match keepAliveInterval s with
    | Some h => (set_keepAliveInterval None s, [ClearInterval h])
    | None => (s, [])
    end in
  let '(s, e2) :=
    match deepgramLive s with
    | Some c => (set_deepgramLive None s, [DeepgramRequestClose c])
    | None => (s, [])
    end in
  (s, e1 ++ e2).

Section Handler.
Context `{Host}.

Definition processTranscript (userText : jsstring) (s : Session)
  : Session * list Effect :=
  if isPlaying s then (s, []) else
  if negb (JS.truthy userText) || negb (JS.truthy (JS.trim userText))
  then (s, []) else
  let s := set_isPlaying true s in
  let s := set_messages (messages s ++ [{| role := user; content := userText |}]) s in
  (set_inFlight (inFlight s ++ [AwaitReply]) s, [CallGenerate (messages s)]).

(** The [finally] block. *)
Definition finish (now : Z) (s : Session) : Session :=
  set_ignoreTranscriptsUntil (now + 1000) (set_isPlaying false s).

(** Entering the [catch] block: up to its first [await]. *)
Definition catchError (s : Session)
  : Session * list Effect * option Awaiting :=
  (s, [CallTextToSpeech FALLBACK_TEXT], Some AwaitFallbackSpeech).

(** An activation goes on when the promise it awaits settles, up to
    its next [await] ([Some] place) or to its end ([None]). *)
Definition resume (now : Z) (k : Awaiting) (o : Settled) (s : Session)
  : option (Session * list Effect * option Awaiting) :=
  match k, o with
  | AwaitReply, Reply reply =>
      let s := set_messages (messages s ++ [{| role := assistant; content := reply |}]) s in
      Some (s, [CallTextToSpeech reply], Some AwaitSpeech)
  | AwaitSpeech, Audio mp3Buffer =>
      Some (s, [CallMp3ToMulaw mp3Buffer], Some AwaitMulaw)
  | AwaitMulaw, Audio mulawBuffer =>
      if decide (length mulawBuffer = 0%nat) then Some (catchError s)
      else Some (finish now s, play s mulawBuffer, None)
  | (AwaitReply | AwaitSpeech | AwaitMulaw), Rejected =>
      Some (catchError s)
  | AwaitFallbackSpeech, Audio mp3Buffer =>
      Some (s, [CallMp3ToMulaw mp3Buffer], Some AwaitFallbackMulaw)
  | AwaitFallbackMulaw, Audio mulawBuffer =>
      Some (finish now s, play s mulawBuffer, None)
  | (AwaitFallbackSpeech | AwaitFallbackMulaw), Rejected =>
      Some (finish now s, [], None)
  | _, _ => None
  end.

(** The greeting: the async arrow called in place by "start". *)
Definition resumeGreeting (k : GreetingAwaiting) (o : Settled) (s : Session)
  : option (list Effect * option GreetingAwaiting) :=
  match k, o with
  | GreetingSpeech, Audio mp3Buffer =>
      Some ([CallMp3ToMulaw mp3Buffer], Some GreetingMulaw)
  | GreetingMulaw, Audio mulawBuffer => Some (play s mulawBuffer, None)
  | _, Rejected => Some ([], None)
  | _, _ => None
  end.

Definition onStart (sid : option jsstring) (s : Session)
  : Session * list Effect :=
  let s := set_streamSid sid s in
  if negb (JS.truthy DEEPGRAM_API_KEY) then (s, sendToTwilio ErrorOut s) else
  let s := set_greetings (greetings s ++ [GreetingSpeech]) s in
  let conn := handles s in
  let s := set_handles (S conn) (set_deepgramLive (Some conn) s) in
  (s, [CallTextToSpeech GREETING_TEXT; DeepgramListen conn]).

Definition onMessage (msg : option TwilioMsg) (s : Session)
  : Session * list Effect :=
  match msg with
  | Some (Start sid) => onStart sid s
  | Some (Media (Some payload)) =>
      match deepgramLive s with
      | Some conn =>
          if negb (JS.truthy payload) then (s, []) else
          if isPlaying s then (s, []) else
          (s, [DeepgramSend conn payload])
      | None => (s, [])
      end
  | Some Stop => cleanup s
  | Some (Media None) | Some OtherEvent | None => (s, [])
  end.

Definition onTranscript (transcript : jsstring) (is_final : bool)
  (s : Session) : Session :=
  if negb (JS.truthy transcript) || negb (JS.truthy (JS.trim transcript))
  then s else
  if is_final
  then set_pendingTranscript
         (JS.trim (pendingTranscript s ++ JS.lit " " ++ transcript)) s
  else set_pendingTranscript
         (JS.trim (pendingTranscript s ++ JS.lit " " ++ transcript)) s.

Definition onUtteranceEnd (now : Z) (s : Session) : Session * list Effect :=
  if decide (now < ignoreTranscriptsUntil s)%Z
  then (set_pendingTranscript [] s, []) else
  let userText := JS.trim (pendingTranscript s) in
  let s := set_pendingTranscript [] s in
  if shouldIgnoreTranscript userText then (s, []) else
  processTranscript userText s.

Definition onOpen (s : Session) : Session * list Effect :=
  let h := handles s in
  (set_handles (S h) (set_keepAliveInterval (Some h) s), [SetInterval h]).

Definition onKeepAlive (ready : bool) (s : Session) : list Effect :=
  match deepgramLive s with
  | Some conn => if ready then [DeepgramKeepAlive conn] else []
  | None => []
  end.

(** One turn of the event loop. [None]: the event cannot happen in
    this state (no such activation, or a promise settling with a
    value of another kind than its callee returns). *)
Definition step (ev : Event) (s : Session) : option (Session * list Effect) :=
  match ev with
  | TwilioMessage msg => Some (onMessage msg s)
  | TwilioClose | TwilioError | DeepgramClose | DeepgramError =>
      Some (cleanup s)
  | TwilioReadyState n => Some (set_readyState n s, [])
  | DeepgramOpen => Some (onOpen s)
  | Transcript transcript is_final =>
      Some (onTranscript transcript is_final s, [])
  | UtteranceEnd now => Some (onUtteranceEnd now s)
  | Metadata => Some (s, [])
  | KeepAliveTimer ready => Some (s, onKeepAlive ready s)
  | Settle i o now =>
      k ← inFlight s !! i;
      '(s', effects, next) ← resume now k o s;
      match next with
      | Some k' => Some (set_inFlight (<[i := k']> (inFlight s')) s', effects)
      | None => Some (set_inFlight (delete i (inFlight s')) s', effects)
      end
  | GreetingSettle i o =>
      k ← greetings s !! i;
      '(effects, next) ← resumeGreeting k o s;
      match next with
      | Some k' => Some (set_greetings (<[i := k']> (greetings s)) s, effects)
      | None => Some (set_greetings (delete i (greetings s)) s, effects)
      end
  end.

(** A run: the events handled one after the other, the effects in order. *)
Fixpoint run (evs : list Event) (s : Session) : option (Session * list Effect) :=
  match evs with
  | [] => Some (s, [])
  | ev :: rest =>
      '(s1, e1) ← step ev s;
      '(s2, e2) ← run rest s1;
      Some (s2, e1 ++ e2)
  end.

Definition reachable (s : Session) : Prop :=
  ∃ evs effects, run evs initial = Some (s, effects).

End Handler.

(** ** pipeline.js: the reply generator *)

Module Pipeline.

(** The messages of a chat completion request: those of the session,
    the system prompt put in front, and what a tool round adds. *)
Record ToolCall := {
  id : jsstring;
  function_name : option jsstring;        (* tc.function?.name *)
  function_arguments : option jsstring;   (* tc.function?.arguments *)
}.

Record AssistantMessage := {
  msg_content : option jsstring;
  tool_calls : option (list ToolCall);
}.

Inductive ChatMessage :=
| System (text : jsstring)
| Turn (m : Message)
| Assistant (msg : AssistantMessage)
| Tool (tool_call_id : jsstring) (result : jsstring).

Definition NEHA_SYSTEM_PROMPT : jsstring :=
  JS.lit "You are Neha, a real person on a phone call from Siya Ayurveda. You speak naturally in Hindi and English (Hinglish) like a friendly shop assistant. Keep replies short for a call: 1-3 sentences. Be warm and human.

When the customer asks about products, use the get_products tool (with optional search query) to fetch real products, then describe them in a natural way and ask if they want to know more or order.
When they want to buy, ask for: full name, full address (address line, city, state, pincode), phone, and how they want to pay (COD, online, etc.). Then use create_draft_order with the collected details to create their order. Confirm the order and tell them next steps (e.g. we will send payment link / COD confirmation).

Always sound like a real person on a call—use "
  ++ [34]
  ++ JS.lit "ji"
  ++ [34]
  ++ JS.lit ", "
  ++ [34]
  ++ JS.lit "bilkul"
  ++ [34]
  ++ JS.lit ", "
  ++ [34]
  ++ JS.lit "theek hai"
  ++ [34]
  ++ JS.lit ", natural fillers. Never sound like a robot or list bullet points.".

Definition NO_MESSAGE : jsstring :=
  JS.lit "Sorry, main abhi respond nahi de paayi. Phir try karein.".
Definition NO_TEXT : jsstring :=
  JS.lit "Aur bataiye, main kaise help kar sakti hoon?".
Definition OUT_OF_TURNS : jsstring :=
  JS.lit "Thoda time lagega, baad mein phir try karein.".

(** [JSON.stringify({ error: "Unknown tool" })]. *)
Definition UNKNOWN_TOOL : jsstring :=
  JS.lit "{" ++ [34] ++ JS.lit "error" ++ [34] ++ JS.lit ":"
  ++ [34] ++ JS.lit "Unknown tool" ++ [34] ++ JS.lit "}".

(** An awaited call returns or throws. *)
Inductive Outcome (A : Type) := Returned (a : A) | Thrown.
Arguments Returned {A} a.
Arguments Thrown {A}.

Inductive ShopifyTool := get_products | get_product | create_draft_order.

(** The remote ends, answering from a world that each call may
    change: the chat completion endpoint, giving
    [r.choices[0]?.message], and the three tools, whose bodies call
    into [shopify.js] and are left abstract: arguments parsed, store
    called, answer stringified. *)
Class Services (World : Type) := {
  chatCompletionsCreate :
    list ChatMessage → World → World * Outcome (option AssistantMessage);
  shopify : ShopifyTool → jsstring → World → World * Outcome jsstring;
}.

(** The calls made, in order. *)
Inductive Call :=
| ChatCompletion (allMessages : list ChatMessage)
| RunTool (name : option jsstring) (arguments : jsstring).

Section Generator.
Context {World : Type} `{Services World}.

(** State of the world, log of the calls, exceptions. *)
Definition Task (A : Type) : Type := World → World * list Call * Outcome A.

Definition ret {A} (a : A) : Task A := λ w, (w, [], Returned a).

Definition bind {A B} (m : Task A) (f : A → Task B) : Task B :=
  λ w,
    match m w with
    | (w1, log1, Returned a) =>
        let '(w2, log2, r) := f a w1 in (w2, log1 ++ log2, r)
    | (w1, log1, Thrown) => (w1, log1, Thrown)
    end.

Definition call {A} (c : Call) (f : World → World * Outcome A) : Task A :=
  λ w, let '(w1, r) := f w in (w1, [c], r).

Local Notation "x ←' m ; k" := (bind m (λ x, k))
  (at level 100, m at next level, right associativity).

Definition runTool (name : option jsstring) (args : jsstring)
  : World → World * Outcome jsstring :=
  if decide (name = Some (JS.lit "get_products")) then shopify get_products args
  else if decide (name = Some (JS.lit "get_product")) then shopify get_product args
  else if decide (name = Some (JS.lit "create_draft_order"))
       then shopify create_draft_order args
  else λ w, (w, Returned UNKNOWN_TOOL).

(** [for (const tc of msg.tool_calls) { ... }]. *)
Fixpoint runToolCalls (allMessages : list ChatMessage) (tcs : list ToolCall)
  : Task (list ChatMessage) :=
  match tcs with
  | [] => ret allMessages
  | tc :: rest =>
      let name := function_name tc in
      let args :=
        match function_arguments tc with
        | Some a => if JS.truthy a then a else JS.lit "{}"
        | None => JS.lit "{}"
        end in
      result ←' call (RunTool name args) (runTool name args);
      runToolCalls (allMessages ++ [Tool (id tc) result]) rest
  end.

(** [const text = msg.content?.trim(); return text || "Aur bataiye, ..."]. *)
Definition finalText (msg : AssistantMessage) : jsstring :=
  match JS.trim <$> msg_content msg with
  | Some text => if JS.truthy text then text else NO_TEXT
  | None => NO_TEXT
  end.

(** [while (maxTurns-- > 0) { ... }] and the return after it. *)
Fixpoint turns (maxTurns : nat) (allMessages : list ChatMessage)
  : Task jsstring :=
  match maxTurns with
  | O => ret OUT_OF_TURNS
  | S maxTurns =>
      r ←' call (ChatCompletion allMessages)
                (chatCompletionsCreate allMessages);
      match r with
      | None => ret NO_MESSAGE
      | Some msg =>
          match tool_calls msg with
          | Some (tc :: tcs) =>
              allMessages ←' runToolCalls (allMessages ++ [Assistant msg]) (tc :: tcs);
              turns maxTurns allMessages
          | _ => ret (finalText msg)
          end
      end
  end.

Definition nehaResponseWithHistory (messages : list Message) : Task jsstring :=
  turns 8 (System NEHA_SYSTEM_PROMPT :: map Turn messages).

End Generator.

(** The number of chat completion requests in a log. *)
Definition completions (log : list Call) : nat :=
  length (omap (λ c, match c with ChatCompletion m => Some m | _ => None end) log).

(** Remote ends for the concrete runs; the world counts the calls.
    [eager] always asks for the list of products; [answering] asks
    once and then answers. *)
Definition askProducts : AssistantMessage :=
  {| msg_content := None;
     tool_calls := Some [ {| id := JS.lit "call_1";
                             function_name := Some (JS.lit "get_products");
                             function_arguments := Some (JS.lit "{}") |} ] |}.


Definition answering : Services nat :=
  {| chatCompletionsCreate := λ _ w,
       match w with
       | O => (S w, Returned (Some askProducts))
       | _ => (S w, Returned (Some {| msg_content := Some (JS.lit " Ji, zaroor. ");
                                      tool_calls := None |}))
       end;
     shopify := λ _ _ w, (S w, Returned (JS.lit "{}")) |}.

End Pipeline.

(** ** pipeline.js: speech synthesis *)

Module Speech.

Definition FREE_TIER_VOICE_ID : jsstring := JS.lit "21m00Tcm4TlvDq8ikWAM".

(** What the awaited calls throw. [ClientError] is what the
    ElevenLabs client throws, or its stream while it is read, with
    [err?.statusCode] when that is a number; the others are the errors
    of [googleTtsFallback]: its own three, the [URIError] of
    [encodeURIComponent], a rejected [fetch], a rejected
    [res.arrayBuffer()]. *)
Inductive Error :=
| ClientError (statusCode : option Z)
| EmptyText
| URIError
| FetchFailed
| GoogleStatus (status : Z)
| BodyFailed
| TooSmall.

Definition statusCode (err : Error) : option Z :=
  match err with ClientError c => c | _ => None end.

Inductive Result (A : Type) := Ok (a : A) | Err (err : Error).
Arguments Ok {A} a.
Arguments Err {A} err.

(** What [convert] resolves to: a [Buffer], a [Uint8Array], or an
    async iterable that yields chunks and then ends or throws. *)
Inductive Converted :=
| IsBuffer (b : Buffer)
| IsUint8Array (b : Buffer)
| Chunked (chunks : list Buffer) (failure : option Error).

Record Response := { status : Z; arrayBuffer : Result Buffer }.

Definition ok (res : Response) : bool :=
  (200 <=? status res)%Z && (status res <=? 299)%Z.

(** The environment and the remote ends. A request to Google is
    given by the language and the slice of text: the URL is a fixed
    text around [tl=${lang}] and [q=${encodeURIComponent(part)}]. *)
Class Remote (World : Type) := {
  env_ELEVENLABS_VOICE_ID : option jsstring;
  convert : jsstring → jsstring → World → World * Result Converted;
  fetch : jsstring → jsstring → World → World * Result Response;
}.

Inductive Call :=
| Convert (voiceId text : jsstring)
| Fetch (lang part : jsstring).

(** [encodeURIComponent] throws on a surrogate that is not half of a
    pair; [pendingHigh] says the unit before was a high surrogate. *)
Definition isHigh (c : N) : bool := (55296 <=? c) && (c <=? 56319).
Definition isLow (c : N) : bool := (56320 <=? c) && (c <=? 57343).

Fixpoint encodableFrom (pendingHigh : bool) (s : jsstring) : bool :=
  match s with
  | [] => negb pendingHigh
  | c :: r =>
      if pendingHigh then isLow c && encodableFrom false r
      else if isHigh c then encodableFrom true r
      else negb (isLow c) && encodableFrom false r
  end.

Definition encodable (s : jsstring) : bool := encodableFrom false s.

(** [/^[\x00-\x7F\s.,?!;:'-]+$/.test(t)], the class holding the
    double quote too: every unit is Basic Latin or white space, and
    there is one at least. *)
Definition plain (c : N) : bool := (c <=? 127) || JS.isWhiteSpace c.

Definition language (t preferredLang : jsstring) : jsstring :=
  if JS.truthy t && forallb plain t then JS.lit "en" else preferredLang.

Definition maxChunk : nat := 180.

Section Synthesis.
Context {World : Type} `{Remote World}.

(** config.js: [process.env.ELEVENLABS_VOICE_ID || "21m00Tcm4TlvDq8ikWAM"]. *)
Definition ELEVENLABS_VOICE_ID : jsstring :=
  match env_ELEVENLABS_VOICE_ID with
  | Some v => if JS.truthy v then v else JS.lit "21m00Tcm4TlvDq8ikWAM"
  | None => JS.lit "21m00Tcm4TlvDq8ikWAM"
  end.

(** The loop of [googleTtsFallback], from index [i] on. *)
Equations chunksFrom (lang t : jsstring) (i : nat) (chunks : list Buffer)
  (w : World) : World * list Call * Result Buffer
  by wf (length t - i)%nat lt :=
chunksFrom lang t i chunks w with decide (i < length t)%nat := {
  | right _ => (w, [], Ok (concat chunks))
  | left _ =>
      let part := take maxChunk (drop i t) in
      if negb (encodable part) then (w, [], Err URIError) else
      match fetch lang part w with
      | (w1, Err err) => (w1, [Fetch lang part], Err err)
      | (w1, Ok res) =>
          if negb (ok res)
          then (w1, [Fetch lang part], Err (GoogleStatus (status res))) else
          match arrayBuffer res with
          | Err err => (w1, [Fetch lang part], Err err)
          | Ok buf =>
              if decide (length buf < 100)%nat
              then (w1, [Fetch lang part], Err TooSmall) else
              let '(w2, log, r) :=
                chunksFrom lang t (i + maxChunk) (chunks ++ [buf]) w1 in
              (w2, Fetch lang part :: log, r)
          end
      end
  }.
Next Obligation.
  intros. change maxChunk with 180%nat. lia.
Qed.

Definition googleTtsFallback (text preferredLang : jsstring) (w : World)
  : World * list Call * Result Buffer :=
  let t := JS.trim text in
  if negb (JS.truthy t) then (w, [], Err EmptyText) else
  chunksFrom (language t preferredLang) t 0 [] w.

(** The [try] block of [textToSpeech]. *)
Definition synthesize (voiceId text : jsstring) (w : World)
  : World * list Call * Result Buffer :=
  match convert voiceId text w with
  | (w1, Ok (IsBuffer b)) => (w1, [Convert voiceId text], Ok b)
  | (w1, Ok (IsUint8Array b)) => (w1, [Convert voiceId text], Ok b)
  | (w1, Ok (Chunked chunks None)) =>
      (w1, [Convert voiceId text], Ok (concat chunks))
  | (w1, Ok (Chunked chunks (Some err))) =>
      (w1, [Convert voiceId text], Err err)
  | (w1, Err err) => (w1, [Convert voiceId text], Err err)
  end.

(** [voiceIdOverride ?? ELEVENLABS_VOICE_ID ?? FREE_TIER_VOICE_ID]:
    the second operand is a string. *)
Definition voiceOf (voiceIdOverride : option jsstring) : jsstring :=
  default ELEVENLABS_VOICE_ID voiceIdOverride.

Definition retriesLeft (voiceIdOverride : option jsstring) : nat :=
  if decide (voiceOf voiceIdOverride = FREE_TIER_VOICE_ID) then 0%nat else 1%nat.

Equations textToSpeech (text : jsstring) (voiceIdOverride : option jsstring)
  (w : World) : World * list Call * Result Buffer
  by wf (retriesLeft voiceIdOverride) lt :=
textToSpeech text voiceIdOverride w
  with synthesize (voiceOf voiceIdOverride) text w := {
  | (w1, log1, Ok result) => (w1, log1, Ok result)
  | (w1, log1, Err err)
      with decide (statusCode err = Some 402%Z
                   ∧ voiceOf voiceIdOverride ≠ FREE_TIER_VOICE_ID) := {
      | left _ =>
          let '(w2, log2, r) := textToSpeech text (Some FREE_TIER_VOICE_ID) w1 in
          (w2, log1 ++ log2, r)
      | right _ =>
          if decide (statusCode err = Some 401%Z ∨ statusCode err = Some 403%Z)
          then
            let '(w2, log2, r) := googleTtsFallback text (JS.lit "hi") w1 in
            (w2, log1 ++ log2, r)
          else (w1, log1, Err err)
    }
  }.
Next Obligation.
  intros. unfold retriesLeft. cbn [voiceOf default].
  rewrite decide_True by done. rewrite decide_False by tauto. lia.
Qed.

End Synthesis.

End Speech.

(** ** pipeline.js: transcoding to mu-law

    [mp3ToMulaw8k] hands the promise to the handlers of the child
    process; the promise keeps the first settlement. *)

Module Transcode.

Inductive Failure :=
| EmptyInput              (* mp3ToMulaw8k: empty input *)
| SpawnError              (* the 'error' event of the process *)
| ExitCode (code : Z)     (* ffmpeg exited with code ... *)
| MissingPipes            (* ffmpeg spawn: missing stdout or stdin *)
| NoOutput.               (* ffmpeg produced no output *)

Inductive Promise :=
| Pending
| Resolved (out : Buffer)
| Rejected (err : Failure).

Inductive ProcessEvent :=
| ProcError
| Close (code : option Z)       (* null when a signal ended the process *)
| StdoutData (chunk : Buffer)
| StdoutEnd.

Inductive Effect :=
| Spawn
| StdinWrite (data : Buffer)
| StdinEnd.

Record Transcoder := {
  promise : Promise;
  chunks : list Buffer;
  listening : bool;    (* the handlers of stdout are registered *)
}.

Definition settle (p : Promise) (t : Transcoder) : Transcoder :=
  match promise t with
  | Pending => {| promise := p; chunks := chunks t; listening := listening t |}
  | _ => t
  end.

(** [pipes] says whether the process object has both [stdout] and
    [stdin]. *)
Definition mp3ToMulaw8k (mp3Buffer : Buffer) (pipes : bool)
  : Transcoder * list Effect :=
  if decide (length mp3Buffer = 0%nat)
  then ({| promise := Rejected EmptyInput; chunks := []; listening := false |}, [])
  else if negb pipes
  then ({| promise := Rejected MissingPipes; chunks := []; listening := false |},
        [Spawn])
  else ({| promise := Pending; chunks := []; listening := true |},
        [Spawn; StdinWrite mp3Buffer; StdinEnd]).

Definition onEvent (ev : ProcessEvent) (t : Transcoder) : Transcoder :=
  match ev with
  | ProcError => settle (Rejected SpawnError) t
  | Close code =>
      match code with
      | Some c => if decide (c ≠ 0%Z) then settle (Rejected (ExitCode c)) t else t
      | None => t
      end
  | StdoutData chunk =>
      if listening t
      then {| promise := promise t; chunks := chunks t ++ [chunk];
              listening := true |}
      else t
  | StdoutEnd =>
      if listening t then
        let out := concat (chunks t) in
        if decide (length out = 0%nat) then settle (Rejected NoOutput) t
        else settle (Resolved out) t
      else t
  end.

Definition handle (evs : list ProcessEvent) (t : Transcoder) : Transcoder :=
  foldl (λ t ev, onEvent ev t) t evs.

(** The output read before the stream ended, and the events that
    reject a pending promise. *)
Definition outputOf (evs : list ProcessEvent) : Buffer :=
  concat (omap (λ ev, match ev with StdoutData c => Some c | _ => None end) evs).

Definition fails (ev : ProcessEvent) : bool :=
  match ev with
  | ProcError => true
  | Close (Some c) => bool_decide (c ≠ 0%Z)
  | _ => false
  end.

Definition isEnd (ev : ProcessEvent) : bool :=
  match ev with StdoutEnd => true | _ => false end.

End Transcode.

(** ** What a run shows

    Readings of a list of effects, and of a session, in which the
    properties below are stated. *)

Local Open Scope nat_scope.

(** The audio frames handed to the caller's socket. *)
Definition mediaPayloads (effects : list Effect) : list Buffer :=
  omap (λ e, match e with TwilioSend (MediaOut _ p) => Some p | _ => None end)
       effects.

(** The histories given to reply generation. *)
Definition generations (effects : list Effect) : list (list Message) :=
  omap (λ e, match e with CallGenerate h => Some h | _ => None end) effects.

(** The payloads forwarded to speech recognition. *)
Definition recognitionAudio (effects : list Effect) : list jsstring :=
  omap (λ e, match e with DeepgramSend _ p => Some p | _ => None end) effects.

(** The caller's socket is open and the stream has a name: frames
    given to [sendMediaToTwilio] go out. *)
Definition canPlay (s : Session) : Prop :=
  readyState s = 1%Z ∧ ∃ sid, streamSid s = Some sid ∧ JS.truthy sid = true.

(** The fragments of one utterance, as the "Transcript" events that
    bring them. *)
Definition fragmentEvents (fragments : list (jsstring * bool)) : list Event :=
  map (λ f, Transcript f.1 f.2) fragments.

(** A media message with its payload. *)
Definition mediaEvent (payload : jsstring) : Event :=
  TwilioMessage (Some (Media (Some payload))).

(** The settlements of the promises one activation awaits in turn. *)
Definition settlements (i : nat) (outcomes : list (Settled * Z)) : list Event :=
  map (λ o, Settle i o.1 o.2) outcomes.

(** How many settlements an activation is from its end, at most. *)
Definition remaining (k : Awaiting) : nat :=
  match k with
  | AwaitReply => 5
  | AwaitSpeech => 4
  | AwaitMulaw => 3
  | AwaitFallbackSpeech => 2
  | AwaitFallbackMulaw => 1
  end.



(** How many of the keys are [k]. *)
Definition occurrences (k : jsstring) (keys : list jsstring) : nat :=
  length (filter (λ x, x = k) keys).

(** The table [count] of [isRepetitiveNoise] after the keys [seen],
    when none of them is the name of an inherited method: one own
    property for each key seen that is not [__proto__], holding the
    number of its occurrences. *)
Definition tallies (o : JS.object) (seen : list jsstring) : Prop :=
  NoDup o.*1
  ∧ ∀ x, JS.getOwn o x
         = if decide (x = JS.protoAccessor ∨ occurrences x seen = 0)
           then None
           else Some (JS.Num (N.of_nat (occurrences x seen))).

(** The session after the fragments of an utterance were heard. *)
Definition heard (fragments : list (jsstring * bool)) (s : Session) : Session :=
  foldl (λ s f, onTranscript f.1 f.2 s) s fragments.

(** A call in progress on [latinHost], for the concrete runs: the
    stream has started, the greeting is over. *)
Definition inCall : Session :=
  set_greetings [] (@onStart latinHost (Some (JS.lit "MZ0001")) initial).1.

(** An utterance that passes the noise gate, and the call after it
    was heard and released: the session is speaking. *)
Definition MEANINGFUL : jsstring :=
  JS.lit "mujhe ashwagandha tablets chahiye".

Definition speaking : Session :=
  (@onUtteranceEnd latinHost 5000 (heard [(MEANINGFUL, true)] inCall)).1.

Definition REPLY : jsstring :=
  JS.lit "Ji bilkul, ashwagandha tablets available hain.".

Definition userTurn (text : jsstring) : Message :=
  {| role := user; content := text |}.

Definition assistantTurn (text : jsstring) : Message :=
  {| role := assistant; content := text |}.

(** The flag is the lock: it is set exactly while an activation is
    suspended, and there is never more than one. *)
Definition oneAtATime (s : Session) : Prop :=
  (isPlaying s = true ∧ ∃ k, inFlight s = [k])
  ∨ (isPlaying s = false ∧ inFlight s = []).

(** The events that tear the connection down: each one calls
    [cleanup]. *)
Definition tearsDown (ev : Event) : Prop :=
  match ev with
  | TwilioMessage (Some Stop) | TwilioClose | TwilioError
  | DeepgramClose | DeepgramError => True
  | _ => False
  end.

Definition isStart (ev : Event) : Prop :=
  match ev with
  | TwilioMessage (Some (Start _)) => True
  | _ => False
  end.

(** A host on which [DEEPGRAM_API_KEY] is not set. *)
Definition noKeyHost : Host :=
  {| toLowerCase := map latinLower;
     toLowerCase_caseless := latinLower_caseless;
     DEEPGRAM_API_KEY := [] |}.

(** The fragments that are not blank, and the text they add up to:
    the first one trimmed, then each later one after one space, with
    the white space that ends it removed. *)
Definition spoken (fragments : list (jsstring * bool)) : list jsstring :=
  filter (λ t, JS.trim t ≠ []) (map fst fragments).

Definition joined (texts : list jsstring) : jsstring :=
  match texts with
  | [] => []
  | t :: rest => JS.trim t ++ flat_map (λ u, 32%N :: JS.trimEnd u) rest
  end.

(** The shape of a history: every assistant turn comes right after a
    user turn ([afterUser] tells what the turn before the list was). *)
Fixpoint answered (afterUser : bool) (ms : list Message) : bool :=
  match ms with
  | [] => true
  | m :: rest =>
      match role m with
      | user => answered true rest
      | assistant => afterUser && answered false rest
      end
  end.

Definition endsWithUser (ms : list Message) : Prop :=
  ∃ h text, ms = h ++ [userTurn text].

(** A user turn holds a trimmed text that the noise gate let through. *)
Definition gated `{Host} (m : Message) : Prop :=
  role m = user →
  shouldIgnoreTranscript (content m) = false ∧ JS.trim (content m) = content m.

Definition wellFormed `{Host} (ms : list Message) : Prop :=
  Forall gated ms ∧ answered false ms = true.

(** The requests of a generation, read off its log, and how one
    request follows from the one before: the assistant message that
    asked for tools is appended, then one tool message for each call,
    in the order of the calls, under the id of the call. *)
Definition requests (log : list Pipeline.Call) : list (list Pipeline.ChatMessage) :=
  omap (λ c, match c with Pipeline.ChatCompletion m => Some m | _ => None end) log.

Definition toolArguments (tc : Pipeline.ToolCall) : jsstring :=
  match Pipeline.function_arguments tc with
  | Some a => if JS.truthy a then a else JS.lit "{}"
  | None => JS.lit "{}"
  end.

Definition toolRun (tc : Pipeline.ToolCall) : Pipeline.Call :=
  Pipeline.RunTool (Pipeline.function_name tc) (toolArguments tc).

Definition toolMessages (tcs : list Pipeline.ToolCall) (results : list jsstring)
  : list Pipeline.ChatMessage :=
  zip_with (λ tc r, Pipeline.Tool (Pipeline.id tc) r) tcs results.

Definition followsFrom (a b : list Pipeline.ChatMessage) : Prop :=
  ∃ msg tcs results,
    Pipeline.tool_calls msg = Some tcs ∧ tcs ≠ []
    ∧ length results = length tcs
    ∧ b = a ++ Pipeline.Assistant msg :: toolMessages tcs results.

Fixpoint chained {A} (R : A → A → Prop) (l : list A) : Prop :=
  match l with
  | a :: (b :: _) as rest => R a b ∧ chained R rest
  | _ => True
  end.

(** The voices asked for and the slices fetched, read off the log of
    a synthesis. *)
Definition voices (log : list Speech.Call) : list jsstring :=
  omap (λ c, match c with Speech.Convert v _ => Some v | _ => None end) log.

Definition fetched (log : list Speech.Call) : list (jsstring * jsstring) :=
  omap (λ c, match c with Speech.Fetch l p => Some (l, p) | _ => None end) log.

(** Remote ends for the concrete runs: ElevenLabs refuses with the
    status the world holds, Google answers each request with 120
    bytes. *)
Definition refusing : Speech.Remote Z :=
  {| Speech.env_ELEVENLABS_VOICE_ID := Some (JS.lit "pNInz6obpgDQGcFmaJgB");
     Speech.convert := λ _ _ w, (w, Speech.Err (Speech.ClientError (Some w)));
     Speech.fetch := λ _ _ w,
       (w, Speech.Ok {| Speech.status := 200;
                        Speech.arrayBuffer := Speech.Ok (replicate 120 x00) |}) |}.

(** What every reachable session satisfies: one activation at a time,
    a well-formed history, and a user turn at its end while the reply
    is awaited. *)
Definition historyInv `{Host} (s : Session) : Prop :=
  oneAtATime s ∧ wellFormed (messages s)
  ∧ (inFlight s = [AwaitReply] → endsWithUser (messages s)).

(** * Properties *)

(** ** The embedding on concrete inputs *)

Example lit_devanagari : JS.lit "जी ji।" = [2332; 2368; 32; 106; 105; 2404]%N.
Proof. reflexivity. Qed.

Example split_keeps_empty_ends :
  JS.splitSpaces (JS.lit "  a b ") = [[]; JS.lit "a"; JS.lit "b"; []].
Proof. reflexivity. Qed.

Example filler_thanks :
  @isFillerOnly latinHost (JS.lit "Thanks thanks THANKS.") = true
  ∧ @isFillerOnly latinHost (JS.lit "thanks thanks thanks thanks so") = false.
Proof. split; reflexivity. Qed.

Example noise_three_of_five :
  @isRepetitiveNoise latinHost (JS.lit "ji ji ji hello 12") = true
  ∧ @isRepetitiveNoise latinHost (JS.lit "hello hello hello 12 3 3 3") = false.
Proof. split; reflexivity. Qed.

Example entries_order :
  (JS.entries [(JS.lit "b", JS.Num 1); (JS.lit "10", JS.Num 2);
               (JS.lit "9", JS.Num 3); (JS.lit "01", JS.Num 1)]).*1
  = [JS.lit "9"; JS.lit "10"; JS.lit "b"; JS.lit "01"].
Proof. reflexivity. Qed.

Example meaningful_released :
  @shouldIgnoreTranscript latinHost MEANINGFUL = false
  ∧ @run latinHost [Transcript MEANINGFUL true; UtteranceEnd 5000] inCall
    = Some (speaking, [CallGenerate [userTurn MEANINGFUL]])
  ∧ messages speaking = [userTurn MEANINGFUL]
  ∧ isPlaying speaking = true.
Proof. repeat split; reflexivity. Qed.

Example answering_after_one_tool_round :
  ∃ log,
    @Pipeline.nehaResponseWithHistory nat Pipeline.answering
      [userTurn MEANINGFUL] 0
    = (3, log, Pipeline.Returned (JS.lit "Ji, zaroor."))
    ∧ Pipeline.completions log = 2.
Proof. eexists. split; reflexivity. Qed.

(** ** Playback frames *)

Lemma CHUNK_160 : CHUNK = 160.
Proof. reflexivity. Qed.

Lemma playFrom_end s buf i :
  length buf ≤ i → playFrom s buf i = [].
Proof.
  intros Hi. rewrite playFrom_equation_1.
  destruct (decide (i < length buf)) as [Hlt|Hge]; [lia|reflexivity].
Qed.

Lemma playFrom_next s buf i :
  i < length buf →
  playFrom s buf i =
    sendMediaToTwilio
      (let chunk := take CHUNK (drop i buf) in
       if decide (length chunk < CHUNK)
       then chunk ++ replicate (CHUNK - length chunk) xff else chunk) s
    ++ playFrom s buf (i + CHUNK).
Proof.
  intros Hi. rewrite playFrom_equation_1.
  destruct (decide (i < length buf)) as [Hlt|Hge]; [|lia].
  cbn. destruct (decide _) as [Hz|Hnz]; [|reflexivity].
  rewrite length_take, length_drop, CHUNK_160 in Hz. lia.
Qed.

Lemma mediaPayloads_app e1 e2 :
  mediaPayloads (e1 ++ e2) = mediaPayloads e1 ++ mediaPayloads e2.
Proof. apply omap_app. Qed.

Lemma mediaPayloads_send_open s p :
  canPlay s → mediaPayloads (sendMediaToTwilio p s) = [p].
Proof.
  intros [Hr (sid & Hs & Ht)]. unfold sendMediaToTwilio, sendToTwilio.
  rewrite Hs, Ht. cbn. destruct (decide _); [congruence|reflexivity].
Qed.

Lemma mediaPayloads_send s p :
  mediaPayloads (sendMediaToTwilio p s) = [p]
  ∨ mediaPayloads (sendMediaToTwilio p s) = [].
Proof.
  unfold sendMediaToTwilio, sendToTwilio.
  destruct (streamSid s) as [sid|]; [|by right].
  destruct (JS.truthy sid); cbn; [|by right].
  destruct (decide _); [by right|by left].
Qed.

Lemma padded_length (chunk : Buffer) :
  0 < length chunk → length chunk ≤ CHUNK →
  length (if decide (length chunk < CHUNK)
          then chunk ++ replicate (CHUNK - length chunk) xff else chunk)
  = CHUNK.
Proof.
  intros Hpos Hle. destruct (decide _) as [Hlt|Hge].
  - rewrite length_app, length_replicate. lia.
  - lia.
Qed.

Lemma playFrom_sizes s buf : ∀ n i,
  length buf - i ≤ n →
  Forall (λ p, length p = CHUNK) (mediaPayloads (playFrom s buf i)).
Proof.
  induction n as [|n IH]; intros i Hn.
  - rewrite playFrom_end by lia. constructor.
  - destruct (decide (i < length buf)) as [Hi|Hi].
    + rewrite playFrom_next, mediaPayloads_app by done.
      apply Forall_app. split.
      * destruct (mediaPayloads_send s
          (let chunk := take CHUNK (drop i buf) in
           if decide (length chunk < CHUNK)
           then chunk ++ replicate (CHUNK - length chunk) xff else chunk))
          as [-> | ->]; [|constructor].
        constructor; [|constructor]. cbn zeta. apply padded_length.
        -- rewrite length_take, length_drop, CHUNK_160. lia.
        -- rewrite length_take. lia.
      * apply IH. rewrite CHUNK_160. lia.
    + rewrite playFrom_end by lia. constructor.
Qed.

Lemma playFrom_bytes s buf : canPlay s → ∀ n i,
  length buf - i ≤ n →
  ∃ pad, pad < CHUNK ∧
    concat (mediaPayloads (playFrom s buf i)) = drop i buf ++ replicate pad xff.
Proof.
  intros Hs. induction n as [|n IH]; intros i Hn.
  - rewrite playFrom_end by lia. exists 0. split; [rewrite CHUNK_160; lia|].
    rewrite drop_ge by lia. reflexivity.
  - destruct (decide (i < length buf)) as [Hi|Hi].
    + rewrite playFrom_next, mediaPayloads_app, mediaPayloads_send_open by done.
      cbn zeta. cbn [concat app].
      destruct (decide (length (take CHUNK (drop i buf)) < CHUNK)) as [Hshort|Hfull].
      * rewrite length_take, length_drop in Hshort.
        rewrite playFrom_end by lia. cbn.
        rewrite take_ge by (rewrite length_drop; lia).
        exists (CHUNK - length (drop i buf)). split.
        -- rewrite length_drop. lia.
        -- by rewrite app_nil_r.
      * destruct (IH (i + CHUNK)) as (pad & Hpad & Heq); [rewrite CHUNK_160; lia|].
        exists pad. split; [done|].
        rewrite Heq, app_assoc. f_equal.
        rewrite <- (take_drop CHUNK (drop i buf)) at 2.
        by rewrite drop_drop.
    + rewrite playFrom_end by lia. exists 0. split; [rewrite CHUNK_160; lia|].
      rewrite drop_ge by lia. reflexivity.
Qed.

Lemma play_sizes s buf :
  Forall (λ p, length p = CHUNK) (mediaPayloads (play s buf)).
Proof. apply (playFrom_sizes s buf (length buf) 0). lia. Qed.

Lemma resume_sizes `{Host} now k o s s' effects next :
  resume now k o s = Some (s', effects, next) →
  Forall (λ p, length p = CHUNK) (mediaPayloads effects).
Proof.
  intros Hr.
  destruct k, o; cbn in Hr; try discriminate;
    try (destruct (decide (length bytes = 0)));
    injection Hr as <- <- <-; try apply play_sizes; by constructor.
Qed.

Lemma resumeGreeting_sizes `{Host} k o s effects next :
  resumeGreeting k o s = Some (effects, next) →
  Forall (λ p, length p = CHUNK) (mediaPayloads effects).
Proof.
  intros Hr.
  destruct k, o; cbn in Hr; try discriminate;
    injection Hr as <- <-; try apply play_sizes; by constructor.
Qed.

Lemma mediaPayloads_sendToTwilio_error s :
  mediaPayloads (sendToTwilio ErrorOut s) = [].
Proof. unfold sendToTwilio. by destruct (decide _). Qed.

Lemma cleanup_effects s :
  mediaPayloads (cleanup s).2 = [] ∧ generations (cleanup s).2 = []
  ∧ recognitionAudio (cleanup s).2 = [].
Proof.
  unfold cleanup. destruct (keepAliveInterval s); cbn;
    by destruct (deepgramLive s).
Qed.

Lemma step_sizes `{Host} ev s s' effects :
  step ev s = Some (s', effects) →
  Forall (λ p, length p = CHUNK) (mediaPayloads effects).
Proof.
  intros Hs. destruct ev; cbn in Hs.
  - injection Hs as Hs. destruct msg as [[sid|[payload|]| |]|]; cbn in Hs.
    + unfold onStart in Hs. destruct (negb _).
      * injection Hs as <- <-. rewrite mediaPayloads_sendToTwilio_error. constructor.
      * injection Hs as <- <-. constructor.
    + destruct (deepgramLive s); [|injection Hs as <- <-; constructor].
      destruct (negb _); [injection Hs as <- <-; constructor|].
      destruct (isPlaying s); injection Hs as <- <-; constructor.
    + injection Hs as <- <-. constructor.
    + destruct (cleanup_effects s) as [Hc _]. rewrite Hs in Hc. cbn [snd] in Hc.
      rewrite Hc. constructor.
    + injection Hs as <- <-. constructor.
    + injection Hs as <- <-. constructor.
  - injection Hs as Hs. destruct (cleanup_effects s) as [Hc _].
    rewrite Hs in Hc. cbn [snd] in Hc. rewrite Hc. constructor.
  - injection Hs as Hs. destruct (cleanup_effects s) as [Hc _].
    rewrite Hs in Hc. cbn [snd] in Hc. rewrite Hc. constructor.
  - injection Hs as <- <-. constructor.
  - injection Hs as <- <-. constructor.
  - injection Hs as Hs. destruct (cleanup_effects s) as [Hc _].
    rewrite Hs in Hc. cbn [snd] in Hc. rewrite Hc. constructor.
  - injection Hs as Hs. destruct (cleanup_effects s) as [Hc _].
    rewrite Hs in Hc. cbn [snd] in Hc. rewrite Hc. constructor.
  - injection Hs as <- <-. constructor.
  - injection Hs as Hs. unfold onUtteranceEnd in Hs.
    destruct (decide _); [injection Hs as <- <-; constructor|].
    destruct (shouldIgnoreTranscript _); [injection Hs as <- <-; constructor|].
    unfold processTranscript in Hs. cbn in Hs.
    destruct (isPlaying s); [injection Hs as <- <-; constructor|].
    destruct (_ || _); injection Hs as <- <-; constructor.
  - injection Hs as <- <-. constructor.
  - injection Hs as <- <-. unfold onKeepAlive.
    destruct (deepgramLive s); [destruct ready|]; constructor.
  - destruct (inFlight s !! i) as [k|]; [|discriminate]. cbn in Hs.
    destruct (resume now k outcome s) as [[[s1 e1] next]|] eqn:Hr; [|discriminate].
    cbn in Hs. apply resume_sizes in Hr.
    destruct next; injection Hs as <- <-; exact Hr.
  - destruct (greetings s !! i) as [k|]; [|discriminate]. cbn in Hs.
    destruct (resumeGreeting k outcome s) as [[e1 next]|] eqn:Hr; [|discriminate].
    cbn in Hs. apply resumeGreeting_sizes in Hr.
    destruct next; injection Hs as <- <-; exact Hr.
Qed.

(** C6. Every frame given to the caller's socket has the fixed size
    of 160 bytes, the value [config.js] computes for 20 ms at 8 kHz.
    When the socket takes frames, the frames of a buffer put end to end
    are the buffer followed by fewer than 160 bytes 0xff: nothing is cut
    or lost, and only the last frame is padded. A buffer of 350 bytes
    gives three frames, the last one its 30 remaining bytes and 130
    bytes 0xff. *)
Theorem playback_frames `{Host} :
  TWILIO_MULAW_BYTES_PER_CHUNK = 160%Z
  ∧ (∀ ev s s' effects,
       step ev s = Some (s', effects) →
       Forall (λ p, length p = 160) (mediaPayloads effects))
  ∧ (∀ s buf,
       canPlay s →
       ∃ pad, pad < 160
         ∧ concat (mediaPayloads (play s buf)) = buf ++ replicate pad xff)
  ∧ (∀ s buf,
       canPlay s → length buf = 350 →
       mediaPayloads (play s buf)
       = [take 160 buf; take 160 (drop 160 buf);
          drop 320 buf ++ replicate 130 xff]).
Proof.
  split; [reflexivity|]. split; [|split].
  - intros ev s s' effects Hs. apply (step_sizes _ _ _ _ Hs).
  - intros s buf Hs.
    destruct (playFrom_bytes s buf Hs (length buf) 0) as (pad & Hpad & Heq); [lia|].
    exists pad. split; [exact Hpad|exact Heq].
  - intros s buf Hs Hlen. unfold play.
    rewrite (playFrom_next s buf 0) by lia.
    rewrite (playFrom_next s buf (0 + CHUNK)) by (rewrite CHUNK_160; lia).
    rewrite (playFrom_next s buf (0 + CHUNK + CHUNK)) by (rewrite CHUNK_160; lia).
    rewrite playFrom_end by (rewrite CHUNK_160; lia).
    rewrite !mediaPayloads_app, !mediaPayloads_send_open by done.
    cbn zeta. rewrite !length_take, !length_drop, Hlen, CHUNK_160. cbn.
    rewrite (take_ge (drop 320 buf)) by (rewrite length_drop; lia).
    reflexivity.
Qed.

Lemma playback_frames_witness :
  mediaPayloads (play inCall (replicate 350 x00))
  = [replicate 160 x00; replicate 160 x00;
     replicate 30 x00 ++ replicate 130 xff].
Proof.
  apply (proj2 (proj2 (proj2 (@playback_frames latinHost)))
           inCall (replicate 350 x00)).
  - split; [reflexivity|]. exists (JS.lit "MZ0001"). split; reflexivity.
  - reflexivity.
Defined.

(** ** The noise gate and the hangover window *)

Lemma run_app `{Host} evs1 evs2 s s1 e1 :
  run evs1 s = Some (s1, e1) →
  run (evs1 ++ evs2) s
  = '(s2, e2) ← run evs2 s1; Some (s2, e1 ++ e2).
Proof.
  revert s s1 e1. induction evs1 as [|ev evs1 IH]; intros s s1 e1 Hr.
  - injection Hr as <- <-. cbn. by destruct (run evs2 s) as [[??]|].
  - cbn in *. destruct (step ev s) as [[sa ea]|]; [|discriminate]. cbn in *.
    destruct (run evs1 sa) as [[sb eb]|] eqn:Hb; [|discriminate]. cbn in *.
    injection Hr as <- <-. rewrite (IH _ _ _ Hb).
    destruct (run evs2 sb) as [[??]|]; cbn; [|done]. by rewrite app_assoc.
Qed.

Lemma run_fragments `{Host} fragments s :
  run (fragmentEvents fragments) s = Some (heard fragments s, []).
Proof.
  revert s. induction fragments as [|f fs IH]; intros s; [reflexivity|].
  cbn. rewrite IH. reflexivity.
Qed.

Lemma onTranscript_pending t f s :
  ∃ p, onTranscript t f s = set_pendingTranscript p s.
Proof.
  unfold onTranscript. destruct (_ || _).
  - exists (pendingTranscript s). by destruct s.
  - destruct f; eauto.
Qed.

Lemma heard_pending fragments s :
  ∃ p, heard fragments s = set_pendingTranscript p s.
Proof.
  revert s. induction fragments as [|f fs IH]; intros s.
  - exists (pendingTranscript s). by destruct s.
  - change (heard (f :: fs) s) with (heard fs (onTranscript f.1 f.2 s)).
    destruct (onTranscript_pending f.1 f.2 s) as [p ->].
    destruct (IH (set_pendingTranscript p s)) as [q ->]. by exists q.
Qed.

Lemma processTranscript_busy `{Host} text s :
  isPlaying s = true → processTranscript text s = (s, []).
Proof. intros Hp. unfold processTranscript. by rewrite Hp. Qed.

Lemma onUtteranceEnd_ignored `{Host} now s :
  shouldIgnoreTranscript (JS.trim (pendingTranscript s)) = true →
  onUtteranceEnd now s = (set_pendingTranscript [] s, []).
Proof.
  intros Hi. unfold onUtteranceEnd. destruct (decide _); [done|]. by rewrite Hi.
Qed.

Lemma trimStart_length s : length (JS.trimStart s) ≤ length s.
Proof.
  induction s as [|c s IH]; cbn; [lia|].
  destruct (JS.isWhiteSpace c); cbn; lia.
Qed.

Lemma trim_length s : length (JS.trim s) ≤ length s.
Proof.
  unfold JS.trim, JS.trimEnd. rewrite length_rev.
  etrans; [apply trimStart_length|]. rewrite length_rev.
  apply trimStart_length.
Qed.






Lemma has_true set w : JS.has set w = true ↔ w ∈ set.
Proof. unfold JS.has. apply bool_decide_eq_true. Qed.

Lemma run_utterance_ignored `{Host} fragments now s :
  shouldIgnoreTranscript (JS.trim (pendingTranscript (heard fragments s))) = true →
  run (fragmentEvents fragments ++ [UtteranceEnd now]) s
  = Some (set_pendingTranscript [] s, []).
Proof.
  intros Hi.
  rewrite (run_app _ _ _ _ _ (run_fragments fragments s)). cbn.
  rewrite (onUtteranceEnd_ignored _ _ Hi). cbn.
  destruct (heard_pending fragments s) as [p ->]. reflexivity.
Qed.

(** C1. An end of utterance that comes while the session is speaking
    ([isPlaying]), or before [ignoreTranscriptsUntil], has no effect at
    all: in particular no reply is asked for, no activation starts and
    the history is not touched. The pending transcript is emptied,
    which is the reset of the accumulator in the hangover window. *)
Theorem utterance_gated `{Host} s now :
  isPlaying s = true ∨ (now < ignoreTranscriptsUntil s)%Z →
  ∃ s' effects,
    step (UtteranceEnd now) s = Some (s', effects)
    ∧ effects = [] ∧ generations effects = []
    ∧ inFlight s' = inFlight s ∧ messages s' = messages s
    ∧ isPlaying s' = isPlaying s
    ∧ pendingTranscript s' = [].
Proof.
  intros Hgate. exists (set_pendingTranscript [] s), [].
  split; [|done]. cbn. f_equal. unfold onUtteranceEnd.
  destruct (decide _) as [|Hlate]; [done|].
  destruct Hgate as [Hp|]; [|done].
  destruct (shouldIgnoreTranscript _); [done|].
  by apply processTranscript_busy.
Qed.

Lemma utterance_gated_witness :
  ∃ s' effects,
    @step latinHost (UtteranceEnd 5000) speaking = Some (s', effects)
    ∧ effects = [] ∧ generations effects = []
    ∧ inFlight s' = inFlight speaking ∧ messages s' = messages speaking
    ∧ isPlaying s' = isPlaying speaking
    ∧ pendingTranscript s' = [].
Proof.
  apply (@utterance_gated latinHost speaking 5000%Z).
  left. reflexivity.
Defined.

(** C3. Whatever fragments were heard, if the trimmed text they left
    in the pending transcript is shorter than [MIN_REAL_LENGTH] (12
    code units), the end of the utterance discards it: the run has no
    effect, so no reply is asked for, and the history, the activations
    and the flag are as before the fragments. *)
Theorem short_utterance_discarded `{Host} s fragments now :
  length (JS.trim (pendingTranscript (heard fragments s))) < MIN_REAL_LENGTH →
  MIN_REAL_LENGTH = 12
  ∧ ∃ s', run (fragmentEvents fragments ++ [UtteranceEnd now]) s = Some (s', [])
          ∧ messages s' = messages s ∧ inFlight s' = inFlight s
          ∧ isPlaying s' = isPlaying s ∧ pendingTranscript s' = [].
Proof.
  intros Hshort. split; [done|]. exists (set_pendingTranscript [] s).
  split; [|done].
  apply run_utterance_ignored. unfold shouldIgnoreTranscript.
  assert (Hlen := trim_length (JS.trim (pendingTranscript (heard fragments s)))).
  rewrite (bool_decide_eq_true_2 _) by lia.
  by rewrite orb_true_r.
Qed.

Lemma short_utterance_discarded_witness :
  ∃ s',
    @run latinHost
      (fragmentEvents [(JS.lit "haan", false); (JS.lit "ok bye", true)]
       ++ [UtteranceEnd 5000]) inCall
    = Some (s', [])
    ∧ messages s' = messages inCall ∧ inFlight s' = inFlight inCall
    ∧ isPlaying s' = isPlaying inCall ∧ pendingTranscript s' = [].
Proof.
  apply (@short_utterance_discarded latinHost inCall
           [(JS.lit "haan", false); (JS.lit "ok bye", true)] 5000%Z).
  vm_compute. lia.
Defined.



(** ** Inbound audio *)

Lemma run_media_listening `{Host} payloads s conn :
  isPlaying s = false → deepgramLive s = Some conn →
  Forall (λ p, JS.truthy p = true) payloads →
  run (map mediaEvent payloads) s = Some (s, map (DeepgramSend conn) payloads).
Proof.
  intros Hp Hd. induction 1 as [|p ps Ht _ IH]; [reflexivity|].
  cbn. rewrite Hd, Ht, Hp. cbn. rewrite IH. reflexivity.
Qed.

Lemma step_media_speaking `{Host} payload s :
  isPlaying s = true →
  step (TwilioMessage (Some (Media payload))) s = Some (s, []).
Proof.
  intros Hp. cbn. destruct payload as [p|]; [|reflexivity].
  destruct (deepgramLive s); [|reflexivity].
  destruct (negb _); [reflexivity|]. by rewrite Hp.
Qed.

(** C7. A media message that arrives while the session is speaking is
    dropped: nothing is sent to speech recognition and the session is
    unchanged. While the session is not speaking and a recognition
    connection is live, the payload of a media message is sent to that
    connection, and the payloads of successive messages are sent in
    the order the messages arrived. (A media message carries a
    payload; the handler passes over one whose payload is missing or
    empty.) *)
Theorem media_forwarding `{Host} :
  (∀ s payload,
     isPlaying s = true →
     step (TwilioMessage (Some (Media payload))) s = Some (s, []))
  ∧ (∀ s conn payloads,
       isPlaying s = false → deepgramLive s = Some conn →
       Forall (λ p, JS.truthy p = true) payloads →
       ∃ effects,
         run (map mediaEvent payloads) s = Some (s, effects)
         ∧ effects = map (DeepgramSend conn) payloads
         ∧ recognitionAudio effects = payloads).
Proof.
  split.
  - intros s payload Hp. by apply step_media_speaking.
  - intros s conn payloads Hp Hd Ht. eexists. split; [|split; [reflexivity|]].
    + by apply run_media_listening.
    + clear. induction payloads as [|p ps IH]; [reflexivity|].
      cbn. f_equal. exact IH.
Qed.

Lemma media_forwarding_witness :
  @step latinHost (TwilioMessage (Some (Media (Some (JS.lit "f39/fw==")))))
    (set_isPlaying true inCall)
  = Some (set_isPlaying true inCall, [])
  ∧ ∃ effects,
      @run latinHost (map mediaEvent [JS.lit "f39/fw=="; JS.lit "fn5+fg=="]) inCall
      = Some (inCall, effects)
      ∧ effects = map (DeepgramSend 0) [JS.lit "f39/fw=="; JS.lit "fn5+fg=="]
      ∧ recognitionAudio effects = [JS.lit "f39/fw=="; JS.lit "fn5+fg=="].
Proof.
  destruct (@media_forwarding latinHost) as [Hdrop Hfwd]. split.
  - apply Hdrop. reflexivity.
  - apply Hfwd.
    + reflexivity.
    + reflexivity.
    + repeat constructor.
Defined.

(** ** One cycle at a time *)

Ltac step_cases Hs :=
  cbn in Hs;
  unfold onMessage, onStart, onUtteranceEnd, processTranscript, cleanup,
    onOpen, onTranscript, onKeepAlive, sendToTwilio in Hs;
  repeat first [progress simplify_eq/= | case_match].

Lemma generations_play s b : generations (play s b) = [].
Proof.
  unfold play.
  assert (Hn : ∀ n i, length b - i ≤ n → generations (playFrom s b i) = []).
  { induction n as [|n IH]; intros i Hi.
    - by rewrite playFrom_end by lia.
    - destruct (decide (i < length b)); [|by rewrite playFrom_end by lia].
      rewrite playFrom_next by done. unfold generations in *.
      rewrite omap_app, IH by (rewrite CHUNK_160; lia).
      unfold sendMediaToTwilio, sendToTwilio. by repeat case_match. }
  apply (Hn (length b)). lia.
Qed.

(** Events other than an end of utterance and a settlement leave the
    flag, the activations, the history and the window alone. *)
Lemma step_frame `{Host} ev s s' effects :
  step ev s = Some (s', effects) →
  (∀ now, ev ≠ UtteranceEnd now) → (∀ i o now, ev ≠ Settle i o now) →
  isPlaying s' = isPlaying s ∧ inFlight s' = inFlight s
  ∧ messages s' = messages s
  ∧ ignoreTranscriptsUntil s' = ignoreTranscriptsUntil s
  ∧ generations effects = [].
Proof.
  intros Hs Hu Hc.
  destruct ev as [msg| | |n| | | |t f|now| |ready|i o now|i o];
    try (by destruct (Hu now)); try (by destruct (Hc i o now));
    try (by step_cases Hs).
  clear Hu Hc.
  cbn in Hs. destruct (greetings s !! i) as [k|]; [|done]. cbn in Hs.
  destruct (resumeGreeting k o s) as [[e1 next]|] eqn:Hr; [|done]. cbn in Hs.
  assert (generations e1 = []) as Hg.
  { destruct k, o; cbn in Hr; try discriminate; injection Hr as <- <-;
      auto using generations_play. }
  by destruct next; simplify_eq/=.
Qed.

Lemma utteranceEnd_cases `{Host} now s s' effects :
  step (UtteranceEnd now) s = Some (s', effects) →
  (s' = set_pendingTranscript [] s ∧ effects = [])
  ∨ (isPlaying s = false ∧ ¬ (now < ignoreTranscriptsUntil s)%Z
     ∧ shouldIgnoreTranscript (JS.trim (pendingTranscript s)) = false
     ∧ isPlaying s' = true
     ∧ messages s'
       = messages s ++ [{| role := user; content := JS.trim (pendingTranscript s) |}]
     ∧ inFlight s' = inFlight s ++ [AwaitReply]
     ∧ ignoreTranscriptsUntil s' = ignoreTranscriptsUntil s
     ∧ effects = [CallGenerate (messages s')]).
Proof.
  intros Hs. step_cases Hs; auto.
  right. repeat split; auto.
Qed.

Lemma resume_cases `{Host} now k o s s' effects next :
  resume now k o s = Some (s', effects, next) →
  generations effects = []
  ∧ match next with
    | Some k' =>
        remaining k' < remaining k
        ∧ isPlaying s' = isPlaying s
        ∧ ignoreTranscriptsUntil s' = ignoreTranscriptsUntil s
        ∧ inFlight s' = inFlight s
    | None =>
        isPlaying s' = false
        ∧ ignoreTranscriptsUntil s' = (now + 1000)%Z
        ∧ inFlight s' = inFlight s
        ∧ messages s' = messages s
    end
  ∧ match k, o with
    | AwaitReply, Reply reply =>
        messages s' = messages s ++ [{| role := assistant; content := reply |}]
    | _, _ => messages s' = messages s
    end.
Proof.
  intros Hr. unfold resume, catchError, finish in Hr.
  destruct k, o; repeat first [progress simplify_eq/= | case_match];
    rewrite ?generations_play; repeat split; auto; lia.
Qed.

Lemma step_oneAtATime `{Host} ev s s' effects :
  oneAtATime s → step ev s = Some (s', effects) → oneAtATime s'.
Proof.
  intros Hinv Hs.
  destruct ev as [msg| | |n| | | |t f|now| |ready|i outcome now|i o];
    try (destruct (step_frame _ _ _ _ Hs) as (Hp & Hf & _);
         [done|done|]; unfold oneAtATime; by rewrite Hp, Hf).
  - destruct (utteranceEnd_cases _ _ _ _ Hs) as [[-> _]|(Hp & _ & _ & Hp' & _ & Hf & _)].
    + exact Hinv.
    + left. split; [done|]. rewrite Hf.
      destruct Hinv as [[? _]|[_ ->]]; [congruence|]. by exists AwaitReply.
  - cbn in Hs. destruct (inFlight s !! i) as [k|] eqn:Hk; [|done]. cbn in Hs.
    destruct (resume now k outcome s) as [[[s1 e1] next]|] eqn:Hr; [|done].
    cbn in Hs. destruct (resume_cases _ _ _ _ _ _ _ Hr) as (_ & Hnext & _).
    destruct Hinv as [[Hp [k0 Hf]]|[_ Hf]]; [|by rewrite Hf in Hk].
    rewrite Hf in Hk. destruct i; [|done].
    destruct next as [k'|]; injection Hs as <- <-; cbn.
    + destruct Hnext as (_ & Hp1 & _ & Hf1). left. cbn.
      split; [congruence|]. rewrite Hf1, Hf. by exists k'.
    + destruct Hnext as (Hp1 & _ & Hf1 & _). right. cbn.
      split; [done|]. by rewrite Hf1, Hf.
Qed.

Lemma run_oneAtATime `{Host} evs s s' effects :
  oneAtATime s → run evs s = Some (s', effects) → oneAtATime s'.
Proof.
  revert s effects. induction evs as [|ev evs IH]; intros s effects Hinv Hr.
  - by injection Hr as <- <-.
  - cbn in Hr. destruct (step ev s) as [[s1 e1]|] eqn:Hs; [|done]. cbn in Hr.
    destruct (run evs s1) as [[s2 e2]|] eqn:Hr2; [|done]. cbn in Hr.
    injection Hr as <- <-. eapply IH; [|done]. by eapply step_oneAtATime.
Qed.

Lemma reachable_oneAtATime `{Host} s : reachable s → oneAtATime s.
Proof.
  intros (evs & effects & Hr). eapply run_oneAtATime; [|done]. by right.
Qed.

Lemma trim_nil_truthy text :
  JS.truthy (JS.trim text) = true → JS.truthy text = true.
Proof. by destruct text. Qed.

Lemma reachable_step `{Host} ev s s' effects :
  reachable s → step ev s = Some (s', effects) → reachable s'.
Proof.
  intros (evs & e0 & Hr) Hs. exists (evs ++ [ev]), (e0 ++ (effects ++ [])).
  rewrite (run_app _ _ _ _ _ Hr). cbn. by rewrite Hs.
Qed.

(** C2. [processTranscript] does nothing when [isPlaying] is set;
    otherwise, for a text that is not blank, it sets the flag and asks
    for the reply in the same turn of the event loop in which it
    suspends. In every state a connection can reach there is at most
    one suspended activation, and there is one exactly when the flag is
    set. A reply is asked for only from a state without activation,
    and the flag goes from set to clear only in the turn in which the
    activation ends. *)
Theorem one_cycle_at_a_time `{Host} :
  (∀ text s, isPlaying s = true → processTranscript text s = (s, []))
  ∧ (∀ text s,
       isPlaying s = false → JS.truthy (JS.trim text) = true →
       ∃ s', processTranscript text s = (s', [CallGenerate (messages s')])
             ∧ isPlaying s' = true
             ∧ inFlight s' = inFlight s ++ [AwaitReply])
  ∧ (∀ s, reachable s →
       length (inFlight s) ≤ 1
       ∧ (isPlaying s = true ↔ length (inFlight s) = 1))
  ∧ (∀ s ev s' effects,
       reachable s → step ev s = Some (s', effects) →
       (generations effects ≠ [] →
          isPlaying s = false ∧ inFlight s = []
          ∧ isPlaying s' = true ∧ inFlight s' = [AwaitReply]
          ∧ length (generations effects) = 1)
       ∧ (isPlaying s = true → isPlaying s' = false →
          inFlight s' = [] ∧ ∃ i o now, ev = Settle i o now)).
Proof.
  split; [intros; by apply processTranscript_busy|]. split; [|split].
  - intros text s Hp Ht. unfold processTranscript.
    rewrite Hp, Ht, (trim_nil_truthy _ Ht). cbn.
    by exists (set_inFlight (inFlight s ++ [AwaitReply])
              (set_messages (messages s ++ [{| role := user; content := text |}])
                 (set_isPlaying true s))).
  - intros s Hs. destruct (reachable_oneAtATime s Hs) as [[Hp [k Hf]]|[Hp Hf]];
      rewrite Hp, Hf; cbn; split; try lia; split; intros; try done; lia.
  - intros s ev s' effects Hreach Hs.
    pose proof (reachable_oneAtATime s Hreach) as Hinv.
    pose proof (step_oneAtATime _ _ _ _ Hinv Hs) as Hinv'.
    destruct ev as [msg| | |n| | | |t f|now| |ready|i outcome now|i o];
      try (destruct (step_frame _ _ _ _ Hs) as (Hp & Hf & _ & _ & Hg);
           [done|done|]; split; [by rewrite Hg|]; intros; congruence).
    + destruct (utteranceEnd_cases _ _ _ _ Hs)
        as [[-> ->]|(Hp & _ & _ & Hp' & _ & Hf & _ & ->)].
      * split; [done|]. cbn. intros. congruence.
      * split; [|intros; congruence]. intros _.
        destruct Hinv as [[? _]|[_ Hnil]]; [congruence|].
        rewrite Hf, Hnil. done.
    + cbn in Hs. destruct (inFlight s !! i) as [k|] eqn:Hk; [|done]. cbn in Hs.
      destruct (resume now k outcome s) as [[[s1 e1] next]|] eqn:Hr; [|done].
      cbn in Hs. destruct (resume_cases _ _ _ _ _ _ _ Hr) as (Hg & Hnext & _).
      destruct next as [k'|]; injection Hs as <- <-; cbn.
      * split; [by rewrite Hg|]. destruct Hnext as (_ & Hp1 & _). congruence.
      * split; [by rewrite Hg|]. intros Hp _.
        destruct Hinv' as [[Hp' _]|[_ Hnil]].
        -- cbn in Hp'. destruct Hnext as [Hp1 _]. congruence.
        -- split; [exact Hnil|]. by exists i, outcome, now.
Qed.

Lemma one_cycle_at_a_time_witness :
  processTranscript MEANINGFUL speaking = (speaking, [])
  ∧ length (inFlight speaking) ≤ 1
  ∧ (isPlaying speaking = true ↔ length (inFlight speaking) = 1).
Proof.
  destruct (@one_cycle_at_a_time latinHost) as (Hbusy & _ & Hinv & _). split.
  - apply Hbusy. reflexivity.
  - apply Hinv.
    exists [TwilioMessage (Some (Start (Some (JS.lit "MZ0001"))));
            GreetingSettle 0 Rejected;
            Transcript MEANINGFUL true; UtteranceEnd 5000].
    eexists. reflexivity.
Defined.

(** ** The end of a cycle *)

(** C8. A rejection of reply generation, of synthesis or of
    transcoding, and an empty transcoded buffer, all lead to the
    synthesis of the fixed apology, whose audio then goes through the
    same [play] as a reply's. Every settlement either ends the
    activation, and then the flag is clear and
    [ignoreTranscriptsUntil] is the time of that moment plus 1000 ms,
    or brings it strictly closer to its end, which is at most five
    settlements away; a rejection is handled at every place. So a
    connection whose activation has ended is listening again. *)
Theorem cycle_ends_listening `{Host} :
  (∀ now k s,
     k ∈ [AwaitReply; AwaitSpeech; AwaitMulaw] →
     resume now k Rejected s
     = Some (s, [CallTextToSpeech FALLBACK_TEXT], Some AwaitFallbackSpeech))
  ∧ (∀ now s,
       resume now AwaitMulaw (Audio []) s
       = Some (s, [CallTextToSpeech FALLBACK_TEXT], Some AwaitFallbackSpeech))
  ∧ (∀ now s mp3 mulaw,
       resume now AwaitFallbackSpeech (Audio mp3) s
       = Some (s, [CallMp3ToMulaw mp3], Some AwaitFallbackMulaw)
       ∧ resume now AwaitFallbackMulaw (Audio mulaw) s
         = Some (finish now s, play s mulaw, None)
       ∧ (mulaw ≠ [] →
          resume now AwaitMulaw (Audio mulaw) s
          = Some (finish now s, play s mulaw, None)))
  ∧ (∀ now k o s s' effects next,
       resume now k o s = Some (s', effects, next) →
       match next with
       | None =>
           isPlaying s' = false
           ∧ ignoreTranscriptsUntil s' = (now + 1000)%Z
       | Some k' => remaining k' < remaining k ≤ 5
       end)
  ∧ (∀ now k s, is_Some (resume now k Rejected s))
  ∧ (∀ s i o now s' effects,
       reachable s → step (Settle i o now) s = Some (s', effects) →
       inFlight s' = [] →
       isPlaying s' = false ∧ ignoreTranscriptsUntil s' = (now + 1000)%Z).
Proof.
  split; [|split; [|split; [|split; [|split]]]].
  - intros now k s Hk. rewrite !elem_of_cons, elem_of_nil in Hk.
    by destruct Hk as [->|[->|[->|[]]]].
  - done.
  - intros now s mp3 mulaw. split; [done|]. split; [done|].
    intros Hne. cbn. destruct (decide _) as [Hz|]; [|done].
    by destruct mulaw.
  - intros now k o s s' effects next Hr.
    destruct (resume_cases _ _ _ _ _ _ _ Hr) as (_ & Hnext & _).
    destruct next as [k'|].
    + destruct Hnext as [Hlt _]. split; [done|]. destruct k; cbn; lia.
    + by destruct Hnext as (? & ? & _).
  - intros now k s. by destruct k.
  - intros s i o now s' effects Hreach Hs Hnil.
    destruct (reachable_oneAtATime _ (reachable_step _ _ _ _ Hreach Hs))
      as [[_ [k Hk]]|[Hp _]]; [congruence|].
    split; [done|]. cbn in Hs.
    destruct (inFlight s !! i) as [k|] eqn:Hk; [|done]. cbn in Hs.
    destruct (resume now k o s) as [[[s1 e1] next]|] eqn:Hr; [|done].
    cbn in Hs. destruct (resume_cases _ _ _ _ _ _ _ Hr) as (_ & Hnext & _).
    destruct next as [k'|]; injection Hs as <- <-.
    + cbn in Hnil. destruct Hnext as (_ & _ & _ & Hf1).
      apply (f_equal length) in Hnil. rewrite length_insert, Hf1 in Hnil.
      apply lookup_lt_Some in Hk. cbn in Hnil. lia.
    + by destruct Hnext as (_ & ? & _).
Qed.

Lemma cycle_ends_listening_witness :
  resume 7000 AwaitSpeech Rejected speaking
  = Some (speaking, [CallTextToSpeech FALLBACK_TEXT], Some AwaitFallbackSpeech)
  ∧ isPlaying (finish 9000 speaking) = false
  ∧ ignoreTranscriptsUntil (finish 9000 speaking) = 10000%Z.
Proof.
  destruct (@cycle_ends_listening latinHost) as (Hfail & _ & _ & Hend & _).
  split.
  - apply Hfail. rewrite !elem_of_cons. auto.
  - apply (Hend 9000%Z AwaitFallbackSpeech Rejected speaking
             (finish 9000 speaking) [] None).
    reflexivity.
Defined.

(** ** The history of a turn *)

Lemma step_history `{Host} ev s s' effects :
  step ev s = Some (s', effects) →
  messages s `prefix_of` messages s'
  ∧ Forall (λ h, messages s `prefix_of` h) (generations effects).
Proof.
  intros Hs.
  destruct ev as [msg| | |n| | | |t f|now| |ready|i outcome now|i o];
    try (destruct (step_frame _ _ _ _ Hs) as (_ & _ & Hm & _ & Hg);
         [done|done|]; by rewrite Hm, Hg).
  - destruct (utteranceEnd_cases _ _ _ _ Hs)
      as [[-> ->]|(_ & _ & _ & _ & Hm & _ & _ & ->)].
    + done.
    + rewrite Hm. split; [by apply prefix_app_r|].
      repeat constructor. by apply prefix_app_r.
  - cbn in Hs. destruct (inFlight s !! i) as [k|] eqn:Hk; [|done]. cbn in Hs.
    destruct (resume now k outcome s) as [[[s1 e1] next]|] eqn:Hr; [|done].
    cbn in Hs. destruct (resume_cases _ _ _ _ _ _ _ Hr) as (Hg & _ & Hm).
    assert (messages s `prefix_of` messages s1) as Hpre.
    { destruct k, outcome; rewrite Hm; by try apply prefix_app_r. }
    destruct next; injection Hs as <- <-; cbn; by rewrite Hg.
Qed.

Lemma run_history `{Host} evs s s' effects :
  run evs s = Some (s', effects) →
  messages s `prefix_of` messages s'
  ∧ Forall (λ h, messages s `prefix_of` h) (generations effects).
Proof.
  revert s effects. induction evs as [|ev evs IH]; intros s effects Hr.
  - by injection Hr as <- <-.
  - cbn in Hr. destruct (step ev s) as [[s1 e1]|] eqn:Hs; [|done]. cbn in Hr.
    destruct (run evs s1) as [[s2 e2]|] eqn:Hr2; [|done]. cbn in Hr.
    injection Hr as <- <-.
    destruct (step_history _ _ _ _ Hs) as [Hp1 Hg1].
    destruct (IH _ _ Hr2) as [Hp2 Hg2]. split; [by etrans|].
    unfold generations. rewrite omap_app. apply Forall_app. split; [done|].
    eapply Forall_impl; [exact Hg2|]. intros h Hh. by etrans.
Qed.

(** Once the reply has come, the rest of the cycle leaves the history
    as it is. *)
Lemma run_settlements_history `{Host} outcomes : ∀ k s s' effects,
  inFlight s = [k] → k ≠ AwaitReply →
  run (settlements 0 outcomes) s = Some (s', effects) →
  messages s' = messages s.
Proof.
  induction outcomes as [|[o now] outcomes IH]; intros k s s' effects Hf Hk Hr.
  - by injection Hr as <- <-.
  - cbn in Hr. rewrite Hf in Hr. cbn in Hr.
    destruct (resume now k o s) as [[[s1 e1] next]|] eqn:Hres; [|done].
    cbn in Hr. destruct (resume_cases _ _ _ _ _ _ _ Hres) as (_ & Hnext & Hm).
    assert (messages s1 = messages s) as Hm1 by (by destruct k, o).
    destruct next as [k'|]; cbn in Hr.
    + destruct Hnext as (Hlt & _ & _ & Hf1).
      fold (settlements 0 outcomes) in Hr.
      destruct (run (settlements 0 outcomes) _) as [[s2 e2]|] eqn:Hr2; [|done].
      cbn in Hr. injection Hr as <- <-.
      assert (k' ≠ AwaitReply) as Hk'.
      { intros ->. destruct k; cbn in Hlt; lia. }
      assert (inFlight (set_inFlight (<[0:=k']> (inFlight s1)) s1) = [k']) as Hf2.
      { cbn. by rewrite Hf1, Hf. }
      by rewrite (IH k' _ _ _ Hf2 Hk' Hr2).
    + destruct Hnext as (_ & _ & Hf1 & _).
      destruct outcomes as [|[o2 now2] outcomes]; cbn in Hr.
      * by injection Hr as <- <-.
      * by rewrite Hf1, Hf in Hr.
Qed.

Lemma utteranceEnd_released `{Host} now s :
  isPlaying s = false → ¬ (now < ignoreTranscriptsUntil s)%Z →
  shouldIgnoreTranscript (JS.trim (pendingTranscript s)) = false →
  onUtteranceEnd now s
  = (set_inFlight (inFlight s ++ [AwaitReply])
       (set_messages (messages s ++ [userTurn (JS.trim (pendingTranscript s))])
          (set_isPlaying true (set_pendingTranscript [] s))),
     [CallGenerate (messages s ++ [userTurn (JS.trim (pendingTranscript s))])]).
Proof.
  intros Hp Hlate Hkeep. unfold onUtteranceEnd.
  destruct (decide _); [done|]. rewrite Hkeep.
  unfold processTranscript. cbn. rewrite Hp.
  unfold shouldIgnoreTranscript in Hkeep.
  destruct (negb (JS.truthy (JS.trim (pendingTranscript s)))) eqn:Ht; [done|].
  cbn in Hkeep. case_bool_decide as Hlen; [done|].
  destruct (JS.trim (JS.trim (pendingTranscript s))) eqn:Htt;
    [cbn in Hlen; unfold MIN_REAL_LENGTH in Hlen; lia|].
  reflexivity.
Qed.

(** C10 as it is stated fails: the reply is put in the history as
    soon as it is generated, before it is synthesized. Here synthesis
    of the reply is rejected and the apology is played instead; the
    history ends with the assistant turn of the reply that was never
    heard. *)
Lemma reply_recorded_when_synthesis_fails :
  ∃ s' effects,
    @run latinHost
      [Transcript MEANINGFUL true; UtteranceEnd 5000;
       Settle 0 (Reply REPLY) 6000; Settle 0 Rejected 6500;
       Settle 0 (Audio [x49; x44; x33]) 7000;
       Settle 0 (Audio (replicate 200 x7f)) 7500] inCall
    = Some (s', effects)
    ∧ generations effects = [[userTurn MEANINGFUL]]
    ∧ CallTextToSpeech FALLBACK_TEXT ∈ effects
    ∧ length (mediaPayloads effects) = 2
    ∧ isPlaying s' = false ∧ inFlight s' = []
    ∧ messages s' = [userTurn MEANINGFUL; assistantTurn REPLY]
    ∧ messages s' ≠ messages inCall ++ [userTurn MEANINGFUL].
Proof.
  eexists _, _. split; [vm_compute; reflexivity|].
  split; [reflexivity|]. split.
  - do 2 apply list_elem_of_further. apply list_elem_of_here.
  - repeat split; done.
Qed.

(** C10, amended. The caller's turn is put in the history when the
    utterance is released, before the reply is asked for, and the
    request carries it. If reply generation is rejected nothing more
    is put in. If it answers, the reply is put in at once as the
    assistant's turn, before it is synthesized. No later step of the
    cycle changes the history: after a failure of synthesis or of
    transcoding the reply stays in although it was not played, and the
    apology is never put in. So at the end of a cycle the history is
    the old one, the caller's turn, and the reply if there was one.
    The history only grows, and every later request for a reply
    carries it. *)
Theorem history_of_a_turn `{Host} :
  (∀ s now,
     isPlaying s = false → ¬ (now < ignoreTranscriptsUntil s)%Z →
     shouldIgnoreTranscript (JS.trim (pendingTranscript s)) = false →
     ∃ s1, step (UtteranceEnd now) s
           = Some (s1, [CallGenerate
                          (messages s ++ [userTurn (JS.trim (pendingTranscript s))])])
           ∧ messages s1
             = messages s ++ [userTurn (JS.trim (pendingTranscript s))])
  ∧ (∀ now s,
       resume now AwaitReply Rejected s
       = Some (s, [CallTextToSpeech FALLBACK_TEXT], Some AwaitFallbackSpeech))
  ∧ (∀ now s reply,
       resume now AwaitReply (Reply reply) s
       = Some (set_messages (messages s ++ [assistantTurn reply]) s,
               [CallTextToSpeech reply], Some AwaitSpeech))
  ∧ (∀ now k o s s' effects next,
       k ≠ AwaitReply → resume now k o s = Some (s', effects, next) →
       messages s' = messages s)
  ∧ (∀ s now outcomes s' effects,
       isPlaying s = false → inFlight s = [] →
       ¬ (now < ignoreTranscriptsUntil s)%Z →
       shouldIgnoreTranscript (JS.trim (pendingTranscript s)) = false →
       run (UtteranceEnd now :: settlements 0 outcomes) s = Some (s', effects) →
       match outcomes with
       | (Reply reply, _) :: _ =>
           messages s'
           = messages s ++ [userTurn (JS.trim (pendingTranscript s));
                            assistantTurn reply]
       | _ =>
           messages s'
           = messages s ++ [userTurn (JS.trim (pendingTranscript s))]
       end)
  ∧ (∀ s evs s' effects,
       run evs s = Some (s', effects) →
       messages s `prefix_of` messages s'
       ∧ Forall (λ h, messages s `prefix_of` h) (generations effects)).
Proof.
  split; [|split; [|split; [|split; [|split]]]].
  - intros s now Hp Hlate Hkeep. cbn.
    rewrite (utteranceEnd_released _ _ Hp Hlate Hkeep). by eexists.
  - done.
  - done.
  - intros now k o s s' effects next Hk Hr.
    destruct (resume_cases _ _ _ _ _ _ _ Hr) as (_ & _ & Hm). by destruct k, o.
  - intros s now outcomes s' effects Hp Hf Hlate Hkeep Hr.
    cbn in Hr. rewrite (utteranceEnd_released _ _ Hp Hlate Hkeep) in Hr.
    cbn in Hr. fold (settlements 0 outcomes) in Hr.
    destruct (run (settlements 0 outcomes) _) as [[s2 e2]|] eqn:Hr2; [|done].
    cbn in Hr. injection Hr as <- <-. rewrite Hf in Hr2.
    destruct outcomes as [|[o t] outcomes].
    { by injection Hr2 as <- <-. }
    cbn in Hr2. destruct o as [reply|bytes|]; cbn in Hr2; [| done |].
    + fold (settlements 0 outcomes) in Hr2.
      destruct (run (settlements 0 outcomes) _) as [[s3 e3]|] eqn:Hr3; [|done].
      cbn in Hr2. injection Hr2 as <- <-.
      apply (run_settlements_history _ AwaitSpeech) in Hr3; [|done|done].
      rewrite Hr3. cbn. by rewrite <- app_assoc.
    + fold (settlements 0 outcomes) in Hr2.
      destruct (run (settlements 0 outcomes) _) as [[s3 e3]|] eqn:Hr3; [|done].
      cbn in Hr2. injection Hr2 as <- <-.
      apply (run_settlements_history _ AwaitFallbackSpeech) in Hr3; [|done|done].
      by rewrite Hr3.
  - intros s evs s' effects Hr. by eapply run_history.
Qed.

Lemma history_of_a_turn_witness :
  ∃ s' effects,
    @run latinHost
      (UtteranceEnd 5000 :: settlements 0 [(Rejected, 6000%Z); (Rejected, 7000%Z)])
      (heard [(MEANINGFUL, true)] inCall) = Some (s', effects)
    ∧ messages s' = [userTurn MEANINGFUL].
Proof.
  eexists _, _. split; [vm_compute; reflexivity|].
  apply (proj1 (proj2 (proj2 (proj2 (proj2 (@history_of_a_turn latinHost)))))
           (heard [(MEANINGFUL, true)] inCall) 5000%Z
           [(Rejected, 6000%Z); (Rejected, 7000%Z)] _
           [CallGenerate [userTurn MEANINGFUL];
            CallTextToSpeech FALLBACK_TEXT]);
    [reflexivity|reflexivity|vm_compute; discriminate|reflexivity
    |vm_compute; reflexivity].
Defined.

(** ** The tool loop of reply generation *)

Section GeneratorFacts.
Import Pipeline.
Context {World : Type} `{Services World}.



Lemma turns_S n allMessages w :
  turns (S n) allMessages w
  = match chatCompletionsCreate allMessages w with
    | (w1, Returned (Some msg)) =>
        match tool_calls msg with
        | Some (tc :: tcs) =>
            match runToolCalls (allMessages ++ [Assistant msg]) (tc :: tcs) w1 with
            | (w2, log2, Returned all2) =>
                let '(w3, log3, r) := turns n all2 w2 in
                (w3, [ChatCompletion allMessages] ++ log2 ++ log3, r)
            | (w2, log2, Thrown) =>
                (w2, [ChatCompletion allMessages] ++ log2, Thrown)
            end
        | _ => (w1, [ChatCompletion allMessages] ++ [], Returned (finalText msg))
        end
    | (w1, Returned None) =>
        (w1, [ChatCompletion allMessages] ++ [], Returned NO_MESSAGE)
    | (w1, Thrown) => (w1, [ChatCompletion allMessages], Thrown)
    end.
Proof.
  change (turns (S n) allMessages w) with
    (bind (call (ChatCompletion allMessages) (chatCompletionsCreate allMessages))
       (λ r, match r with
             | None => ret NO_MESSAGE
             | Some msg =>
                 match tool_calls msg with
                 | Some (tc :: tcs) =>
                     bind (runToolCalls (allMessages ++ [Assistant msg]) (tc :: tcs))
                       (λ all2, turns n all2)
                 | _ => ret (finalText msg)
                 end
             end) w).
  unfold bind at 1. unfold call.
  destruct (chatCompletionsCreate allMessages w) as [w1 [[msg|]|]]; [|done|done].
  destruct (tool_calls msg) as [[|tc tcs]|]; [done| |done].
  unfold bind.
  destruct (runToolCalls _ (tc :: tcs) w1) as [[w2 log2] [all2|]]; [|done].
  by destruct (turns n all2 w2) as [[w3 log3] r].
Qed.







End GeneratorFacts.


(** ** Repetitive noise *)

Lemma getOwn_setOwn o k v x :
  JS.getOwn (JS.setOwn o k v) x
  = if decide (x = k) then Some v else JS.getOwn o x.
Proof.
  induction o as [|[k' v'] o IH]; cbn.
  - destruct (decide (k = x)), (decide (x = k)); congruence.
  - destruct (decide (k' = k)) as [->|Hne]; cbn.
    + destruct (decide (k = x)), (decide (x = k)); congruence.
    + rewrite IH. destruct (decide (k' = x)), (decide (x = k)); congruence.
Qed.

Lemma getOwn_None o x : JS.getOwn o x = None ↔ x ∉ o.*1.
Proof.
  induction o as [|[k' v'] o IH]; cbn.
  - split; [intros _; apply not_elem_of_nil|done].
  - rewrite not_elem_of_cons.
    destruct (decide (k' = x)) as [->|Hne]; [split; [done|tauto]|].
    rewrite IH. split; [auto|tauto].
Qed.

Lemma getOwn_elem o x v : JS.getOwn o x = Some v → (x, v) ∈ o.
Proof.
  induction o as [|[k' v'] o IH]; cbn; [done|].
  destruct (decide (k' = x)) as [->|Hne].
  - intros [= ->]. apply list_elem_of_here.
  - intros Hg. apply list_elem_of_further. auto.
Qed.

Lemma elem_getOwn o x v : NoDup o.*1 → (x, v) ∈ o → JS.getOwn o x = Some v.
Proof.
  induction o as [|[k' v'] o IH]; cbn; intros Hnd Hin.
  - by apply elem_of_nil in Hin.
  - apply NoDup_cons in Hnd as [Hk' Hnd].
    apply elem_of_cons in Hin as [[= -> ->]|Hin].
    + by destruct (decide (k' = k')).
    + destruct (decide (k' = x)) as [->|Hne]; [|auto].
      destruct Hk'. apply list_elem_of_fmap. by exists (x, v).
Qed.

Lemma setOwn_keys o k v :
  (JS.setOwn o k v).*1 = if decide (k ∈ o.*1) then o.*1 else o.*1 ++ [k].
Proof.
  induction o as [|[k' v'] o IH]; cbn.
  - destruct (decide (k ∈ [])) as [Hin|]; [by apply elem_of_nil in Hin|done].
  - destruct (decide (k' = k)) as [->|Hne]; cbn.
    + destruct (decide (k ∈ k :: o.*1)) as [|Hn]; [done|].
      destruct Hn. apply list_elem_of_here.
    + rewrite IH. destruct (decide (k ∈ o.*1)) as [Hin|Hn].
      * destruct (decide (k ∈ k' :: o.*1)) as [|Hn']; [done|].
        destruct Hn'. by apply list_elem_of_further.
      * destruct (decide (k ∈ k' :: o.*1)) as [Hin'|]; [|done].
        apply elem_of_cons in Hin' as [->|]; done.
Qed.

Lemma setOwn_NoDup o k v : NoDup o.*1 → NoDup (JS.setOwn o k v).*1.
Proof.
  intros Hnd. rewrite setOwn_keys. destruct (decide (k ∈ o.*1)); [done|].
  apply NoDup_app. split; [done|]. split; [|apply NoDup_singleton].
  intros x Hx Hk. apply list_elem_of_singleton in Hk as ->. done.
Qed.

Lemma occurrences_snoc x seen k :
  occurrences x (seen ++ [k])
  = occurrences x seen + (if decide (k = x) then 1 else 0).
Proof.
  unfold occurrences. rewrite filter_app, length_app. f_equal.
  destruct (decide (k = x)) as [->|Hne].
  - by rewrite filter_cons_True.
  - by rewrite filter_cons_False.
Qed.

Lemma increment_tallies o seen k :
  tallies o seen → k ∉ JS.objectPrototypeMethods →
  tallies (JS.increment o k) (seen ++ [k]).
Proof.
  intros [Hnd Hget] Hk. unfold JS.increment.
  pose proof (Hget k) as Hgk.
  destruct (decide (k = JS.protoAccessor ∨ occurrences k seen = 0)) as [Hz|Hnz].
  - rewrite Hgk. destruct (decide (k = JS.protoAccessor)) as [->|Hnp].
    + split; [done|]. intros x. rewrite Hget, occurrences_snoc.
      destruct (decide (JS.protoAccessor = x)) as [<-|Hne].
      * by rewrite !decide_True by auto.
      * by rewrite Nat.add_0_r.
    + destruct Hz as [|Hz]; [done|].
      rewrite decide_False by done.
      split; [by apply setOwn_NoDup|]. intros x.
      rewrite getOwn_setOwn, occurrences_snoc, Hget.
      destruct (decide (x = k)) as [->|Hne].
      * rewrite (decide_True (P := k = k)) by done. rewrite Hz. cbn.
        rewrite decide_False; [done|]. intros [|]; [done|lia].
      * rewrite (decide_False (P := k = x)) by done. by rewrite Nat.add_0_r.
  - rewrite Hgk. split; [by apply setOwn_NoDup|]. intros x.
    rewrite getOwn_setOwn, occurrences_snoc, Hget.
    destruct (decide (x = k)) as [->|Hne].
    + rewrite (decide_True (P := k = k)) by done.
      rewrite decide_False by (intros [|]; [tauto|lia]).
      do 2 f_equal. lia.
    + rewrite (decide_False (P := k = x)) by done. by rewrite Nat.add_0_r.
Qed.

Lemma fold_increment_tallies keys : ∀ o seen,
  tallies o seen → Forall (λ k, k ∉ JS.objectPrototypeMethods) keys →
  tallies (fold_left JS.increment keys o) (seen ++ keys).
Proof.
  induction keys as [|k keys IH]; intros o seen Ht Hk.
  - by rewrite app_nil_r.
  - apply Forall_cons in Hk as [Hk Hks]. cbn.
    rewrite (cons_middle k seen keys), app_assoc.
    apply IH; [|done]. by apply increment_tallies.
Qed.

Lemma tallies_nil : tallies [] [].
Proof. split; [constructor|]. intros x. cbn. by rewrite decide_True by auto. Qed.

Lemma entries_elem o e : e ∈ JS.entries o ↔ e ∈ o.
Proof.
  unfold JS.entries. rewrite merge_sort_Permutation.
  by rewrite (filter_app_complement (λ e, is_Some (JS.arrayIndex e.1)) o).
Qed.



Lemma fold_increment_keys `{Host} words : ∀ o,
  fold_left (λ count w, JS.increment count (noiseKey w)) words o
  = fold_left JS.increment (map noiseKey words) o.
Proof. induction words as [|w words IH]; intros o; [done|]. cbn. apply IH. Qed.





(** * Further properties of the handler *)

(** ** Teardown *)

Lemma cleanup_shape s :
  cleanup s
  = (set_deepgramLive None (set_keepAliveInterval None s),
     match keepAliveInterval s with Some h => [ClearInterval h] | None => [] end
     ++ match deepgramLive s with Some c => [DeepgramRequestClose c] | None => [] end).
Proof.
  unfold cleanup. destruct s as [sid [c|] [h|] m p t u r f g n]; reflexivity.
Qed.

Lemma step_tearsDown `{Host} ev s :
  tearsDown ev → step ev s = Some (cleanup s).
Proof. destruct ev as [[[| | |]|]| | | | | | | | | | | |]; by cbn. Qed.

(** X1. Teardown releases both resources and is idempotent. Any of
    the tearing-down events (the "stop" message, close or error of the
    caller's socket, close or error of the recognition connection)
    clears the keep-alive timer if one runs and asks the recognition
    connection to close if one is live, and leaves both variables
    empty; a second such event, of whatever kind, does nothing. *)
Theorem teardown_idempotent `{Host} ev1 ev2 s :
  tearsDown ev1 → tearsDown ev2 →
  ∃ s1 e1,
    step ev1 s = Some (s1, e1)
    ∧ e1 = match keepAliveInterval s with Some h => [ClearInterval h] | None => [] end
           ++ match deepgramLive s with
              | Some c => [DeepgramRequestClose c] | None => []
              end
    ∧ deepgramLive s1 = None ∧ keepAliveInterval s1 = None
    ∧ isPlaying s1 = isPlaying s ∧ messages s1 = messages s
    ∧ inFlight s1 = inFlight s
    ∧ step ev2 s1 = Some (s1, [])
    ∧ run [ev1; ev2] s = Some (s1, e1).
Proof.
  intros H1 H2. rewrite (step_tearsDown ev1 s H1), cleanup_shape.
  eexists _, _. split; [reflexivity|]. split; [reflexivity|].
  do 5 (split; [reflexivity|]).
  assert (Hsecond : step ev2 (set_deepgramLive None (set_keepAliveInterval None s))
                    = Some (set_deepgramLive None (set_keepAliveInterval None s), [])).
  { rewrite (step_tearsDown ev2 _ H2), cleanup_shape. cbn. by destruct s. }
  split; [exact Hsecond|].
  cbn [run]. rewrite (step_tearsDown ev1 s H1), cleanup_shape. cbn [mbind option_bind].
  rewrite Hsecond. cbn. by rewrite !app_nil_r.
Qed.

Lemma teardown_idempotent_witness :
  ∃ s1 e1,
    @run latinHost [TwilioMessage (Some Stop); TwilioClose]
      (@onOpen inCall).1 = Some (s1, e1)
    ∧ e1 = [ClearInterval 1; DeepgramRequestClose 0]
    ∧ deepgramLive s1 = None ∧ keepAliveInterval s1 = None.
Proof.
  destruct (@teardown_idempotent latinHost (TwilioMessage (Some Stop)) TwilioClose
              (@onOpen inCall).1 I I)
    as (s1 & e1 & _ & He & Hd & Hk & _ & _ & _ & _ & Hrun).
  exists s1, e1. split; [exact Hrun|]. split; [exact He|]. split; assumption.
Defined.

Lemma recognitionAudio_play s b : recognitionAudio (play s b) = [].
Proof.
  unfold play.
  assert (Hn : ∀ n i, length b - i ≤ n → recognitionAudio (playFrom s b i) = []).
  { induction n as [|n IH]; intros i Hi.
    - by rewrite playFrom_end by lia.
    - destruct (decide (i < length b)); [|by rewrite playFrom_end by lia].
      rewrite playFrom_next by done. unfold recognitionAudio in *.
      rewrite omap_app, IH by (rewrite CHUNK_160; lia).
      unfold sendMediaToTwilio, sendToTwilio. by repeat case_match. }
  apply (Hn (length b)). lia.
Qed.

(** Without a live connection and without a new "start", a step
    forwards nothing and opens nothing. *)
Lemma step_no_connection `{Host} ev s s' effects :
  deepgramLive s = None → ¬ isStart ev →
  step ev s = Some (s', effects) →
  deepgramLive s' = None ∧ recognitionAudio effects = [].
Proof.
  intros Hd Hstart Hs.
  assert (Hsame : ∀ e, Some (s, e) = Some (s', effects) →
                       recognitionAudio e = [] →
                       deepgramLive s' = None ∧ recognitionAudio effects = []).
  { intros e Heq He. by injection Heq as <- <-. }
  destruct ev as [[[sid|payload| |]|]| | |n| | | |t f|now| |ready|i o now|i o];
    [by destruct Hstart|clear Hstart..].
  - cbn in Hs. destruct payload; rewrite ?Hd in Hs; by eapply Hsame.
  - cbn in Hs. rewrite cleanup_shape in Hs. injection Hs as <- <-.
    by rewrite Hd; destruct (keepAliveInterval s).
  - by eapply Hsame.
  - by eapply Hsame.
  - cbn in Hs. rewrite cleanup_shape in Hs. injection Hs as <- <-.
    by rewrite Hd; destruct (keepAliveInterval s).
  - cbn in Hs. rewrite cleanup_shape in Hs. injection Hs as <- <-.
    by rewrite Hd; destruct (keepAliveInterval s).
  - cbn in Hs. by injection Hs as <- <-.
  - cbn in Hs. by injection Hs as <- <-.
  - cbn in Hs. rewrite cleanup_shape in Hs. injection Hs as <- <-.
    by rewrite Hd; destruct (keepAliveInterval s).
  - cbn in Hs. rewrite cleanup_shape in Hs. injection Hs as <- <-.
    by rewrite Hd; destruct (keepAliveInterval s).
  - cbn in Hs. unfold onTranscript in Hs.
    by repeat case_match; injection Hs as <- <-.
  - cbn in Hs. unfold onUtteranceEnd, processTranscript in Hs.
    by repeat case_match; injection Hs as <- <-.
  - by eapply Hsame.
  - cbn in Hs. unfold onKeepAlive in Hs. rewrite Hd in Hs. by eapply Hsame.
  - clear Hsame. cbn in Hs. destruct (inFlight s !! i) as [k|]; [|done]. cbn in Hs.
    destruct (resume now k o s) as [[[s1 e1] next]|] eqn:Hr; [|done]. cbn in Hs.
    assert (deepgramLive s1 = None ∧ recognitionAudio e1 = []) as [Hd1 He1].
    { unfold resume, catchError, finish in Hr.
      destruct k, o; repeat case_match; try discriminate;
        inversion Hr; subst; rewrite ?recognitionAudio_play; by split. }
    by destruct next; injection Hs as <- <-.
  - clear Hsame. cbn in Hs. destruct (greetings s !! i) as [k|]; [|done]. cbn in Hs.
    destruct (resumeGreeting k o s) as [[e1 next]|] eqn:Hr; [|done]. cbn in Hs.
    assert (recognitionAudio e1 = []) as He1.
    { destruct k, o; cbn in Hr; try discriminate; injection Hr as <- <-;
        rewrite ?recognitionAudio_play; done. }
    by destruct next; injection Hs as <- <-.
Qed.

(** X2. After a teardown the caller's audio goes nowhere until a new
    "start" message: from a session without live connection, no run
    of events other than "start" forwards a payload to speech
    recognition, and the session stays without connection. *)
Theorem no_audio_after_teardown `{Host} evs s s' effects :
  deepgramLive s = None → Forall (λ ev, ¬ isStart ev) evs →
  run evs s = Some (s', effects) →
  deepgramLive s' = None ∧ recognitionAudio effects = [].
Proof.
  revert s effects. induction evs as [|ev evs IH]; intros s effects Hd Hall Hr.
  - by injection Hr as <- <-.
  - apply Forall_cons in Hall as [Hev Hall]. cbn in Hr.
    destruct (step ev s) as [[s1 e1]|] eqn:Hs; [|done]. cbn in Hr.
    destruct (run evs s1) as [[s2 e2]|] eqn:Hr2; [|done]. cbn in Hr.
    injection Hr as <- <-.
    destruct (step_no_connection _ _ _ _ Hd Hev Hs) as [Hd1 He1].
    destruct (IH _ _ Hd1 Hall Hr2) as [Hd2 He2]. split; [done|].
    unfold recognitionAudio in *. by rewrite omap_app, He1, He2.
Qed.

Lemma no_audio_after_teardown_witness :
  ∃ s' effects,
    @run latinHost
      [mediaEvent (JS.lit "f39/fw=="); KeepAliveTimer true;
       mediaEvent (JS.lit "fn5+fg==")]
      (cleanup inCall).1 = Some (s', effects)
    ∧ deepgramLive s' = None ∧ recognitionAudio effects = [].
Proof.
  eexists _, _. split; [vm_compute; reflexivity|].
  apply (@no_audio_after_teardown latinHost
           [mediaEvent (JS.lit "f39/fw=="); KeepAliveTimer true;
            mediaEvent (JS.lit "fn5+fg==")] (cleanup inCall).1 _ []).
  - reflexivity.
  - repeat (apply Forall_cons; split; [by intros []|]). apply Forall_nil_2.
  - vm_compute. reflexivity.
Defined.

(** ** Start of the stream *)

Lemma step_greetings `{Host} ev s s' effects :
  ¬ isStart ev → (∀ i o, ev ≠ GreetingSettle i o) →
  step ev s = Some (s', effects) → greetings s' = greetings s.
Proof.
  intros Hstart Hg Hs.
  destruct ev as [[[sid|payload| |]|]| | |n| | | |t f|now| |ready|i o now|i o];
    try (by destruct Hstart); try (by destruct (Hg i o));
    clear Hstart Hg; try (by step_cases Hs).
  cbn in Hs. destruct (inFlight s !! i) as [k|]; [|done]. cbn in Hs.
  destruct (resume now k o s) as [[[s1 e1] next]|] eqn:Hr; [|done]. cbn in Hs.
  assert (greetings s1 = greetings s) as Hg1.
  { unfold resume, catchError, finish in Hr.
    destruct k, o; repeat case_match; try discriminate; by inversion Hr; subst. }
  by destruct next; injection Hs as <- <-.
Qed.

(** X3. When [DEEPGRAM_API_KEY] is not set, a "start" message only
    records the stream id and, if the socket is open, sends the error
    message: no greeting is synthesized and no recognition connection
    is opened. On such a host no connection is ever live, no greeting
    is ever in flight and no caller audio is ever forwarded, whatever
    events arrive. *)
Theorem missing_key_never_listens `{Host} :
  JS.truthy DEEPGRAM_API_KEY = false →
  (∀ sid s,
     step (TwilioMessage (Some (Start sid))) s
     = Some (set_streamSid sid s,
             if decide (readyState s = 1%Z) then [TwilioSend ErrorOut] else []))
  ∧ (∀ evs s effects,
       run evs initial = Some (s, effects) →
       deepgramLive s = None ∧ greetings s = []
       ∧ recognitionAudio effects = []).
Proof.
  intros Hkey.
  assert (Hstart : ∀ sid s,
            step (TwilioMessage (Some (Start sid))) s
            = Some (set_streamSid sid s,
                    if decide (readyState s = 1%Z) then [TwilioSend ErrorOut] else [])).
  { intros sid s. cbn. unfold onStart. rewrite Hkey. cbn. unfold sendToTwilio. cbn.
    by destruct (decide (readyState s ≠ 1%Z)), (decide (readyState s = 1%Z)). }
  split; [exact Hstart|].
  assert (Hinv : ∀ evs s s' effects,
            deepgramLive s = None → greetings s = [] →
            run evs s = Some (s', effects) →
            deepgramLive s' = None ∧ greetings s' = [] ∧ recognitionAudio effects = []).
  { induction evs as [|ev evs IH]; intros s s' effects Hd Hg Hr.
    - by injection Hr as <- <-.
    - cbn in Hr. destruct (step ev s) as [[s1 e1]|] eqn:Hs; [|done]. cbn in Hr.
      destruct (run evs s1) as [[s2 e2]|] eqn:Hr2; [|done]. cbn in Hr.
      injection Hr as <- <-.
      assert (deepgramLive s1 = None ∧ greetings s1 = []
              ∧ recognitionAudio e1 = []) as (Hd1 & Hg1 & He1).
      { assert (isStart ev ∨ ¬ isStart ev) as [Hyes|Hno].
        { destruct ev as [[[| | |]|]| | | | | | | | | | | |]; cbn; tauto. }
        - destruct ev as [[[sid| | |]|]| | | | | | | | | | | |]; try done.
          rewrite Hstart in Hs. injection Hs as <- <-. cbn.
          split; [done|]. split; [done|]. by destruct (decide _).
        - destruct (step_no_connection _ _ _ _ Hd Hno Hs) as [Hd1 He1].
          split; [done|]. split; [|done].
          rewrite <- Hg. eapply step_greetings; [done| |done].
          intros i o ->. cbn in Hs. by rewrite Hg in Hs. }
      destruct (IH _ _ _ Hd1 Hg1 Hr2) as (Hd2 & Hg2 & He2).
      split; [done|]. split; [done|].
      unfold recognitionAudio in *. by rewrite omap_app, He1, He2. }
  intros evs s effects Hr.
  apply (Hinv evs initial s effects); [reflexivity|reflexivity|exact Hr].
Qed.

Lemma missing_key_never_listens_witness :
  @step noKeyHost (TwilioMessage (Some (Start (Some (JS.lit "MZ0001"))))) initial
  = Some (set_streamSid (Some (JS.lit "MZ0001")) initial, [TwilioSend ErrorOut]).
Proof.
  apply (proj1 (@missing_key_never_listens noKeyHost eq_refl)).
Defined.

(** X4. With the key set, a "start" message records the stream id,
    asks for the synthesis of the greeting and opens a recognition
    connection under a fresh handle, without closing a connection that
    was live before. The greeting does not set [isPlaying]: media
    messages that follow are forwarded, in order, to the connection
    just opened, while the greeting is still being synthesized. *)
Theorem start_opens_connection `{Host} s sid payloads :
  JS.truthy DEEPGRAM_API_KEY = true → isPlaying s = false →
  Forall (λ p, JS.truthy p = true) payloads →
  ∃ s1,
    run (TwilioMessage (Some (Start sid)) :: map mediaEvent payloads) s
    = Some (s1, [CallTextToSpeech GREETING_TEXT; DeepgramListen (handles s)]
                ++ map (DeepgramSend (handles s)) payloads)
    ∧ streamSid s1 = sid ∧ deepgramLive s1 = Some (handles s)
    ∧ greetings s1 = greetings s ++ [GreetingSpeech]
    ∧ isPlaying s1 = false ∧ handles s1 = S (handles s).
Proof.
  intros Hkey Hp Hall. cbn [run]. cbn [step onMessage]. unfold onStart.
  rewrite Hkey. cbn [negb mbind option_bind].
  erewrite run_media_listening; [|exact Hp|reflexivity|exact Hall].
  cbn. eexists. split; [reflexivity|]. by cbn.
Qed.

Lemma start_opens_connection_witness :
  ∃ s1,
    @run latinHost
      (TwilioMessage (Some (Start (Some (JS.lit "MZ0002"))))
       :: map mediaEvent [JS.lit "f39/fw=="; JS.lit "fn5+fg=="]) inCall
    = Some (s1, [CallTextToSpeech GREETING_TEXT; DeepgramListen 1;
                 DeepgramSend 1 (JS.lit "f39/fw==");
                 DeepgramSend 1 (JS.lit "fn5+fg==")])
    ∧ deepgramLive s1 = Some 1.
Proof.
  destruct (@start_opens_connection latinHost inCall (Some (JS.lit "MZ0002"))
              [JS.lit "f39/fw=="; JS.lit "fn5+fg=="] eq_refl eq_refl)
    as (s1 & Hr & _ & Hd & _).
  - repeat constructor.
  - exists s1. split; [exact Hr|exact Hd].
Defined.

(** ** What goes out on the caller's socket *)

Lemma sendToTwilio_elem obj s e :
  e ∈ sendToTwilio obj s → e = TwilioSend obj ∧ readyState s = 1%Z.
Proof.
  unfold sendToTwilio. destruct (decide (readyState s ≠ 1%Z)) as [|Hopen].
  - by intros ?%elem_of_nil.
  - intros ->%list_elem_of_singleton. split; [done|].
    by destruct (decide (readyState s = 1%Z)).
Qed.

Lemma sendMediaToTwilio_elem p s e :
  e ∈ sendMediaToTwilio p s →
  ∃ sid, e = TwilioSend (MediaOut sid p)
         ∧ streamSid s = Some sid ∧ JS.truthy sid = true
         ∧ readyState s = 1%Z.
Proof.
  unfold sendMediaToTwilio. destruct (streamSid s) as [sid|];
    [|by intros ?%elem_of_nil].
  destruct (JS.truthy sid) eqn:Ht; cbn; [|by intros ?%elem_of_nil].
  intros [-> Hr]%sendToTwilio_elem. by exists sid.
Qed.

Lemma play_elem s b e :
  e ∈ play s b →
  ∃ sid p, e = TwilioSend (MediaOut sid p)
           ∧ streamSid s = Some sid ∧ JS.truthy sid = true
           ∧ readyState s = 1%Z.
Proof.
  unfold play.
  assert (Hn : ∀ n i, length b - i ≤ n → e ∈ playFrom s b i →
            ∃ sid p, e = TwilioSend (MediaOut sid p)
                     ∧ streamSid s = Some sid ∧ JS.truthy sid = true
                     ∧ readyState s = 1%Z).
  { induction n as [|n IH]; intros i Hi.
    - rewrite playFrom_end by lia. by intros ?%elem_of_nil.
    - destruct (decide (i < length b));
        [|rewrite playFrom_end by lia; by intros ?%elem_of_nil].
      rewrite playFrom_next by done.
      intros [Hin|Hin]%elem_of_app.
      + apply sendMediaToTwilio_elem in Hin as (sid & -> & ?). eauto.
      + apply (IH (i + CHUNK)); [rewrite CHUNK_160; lia|done]. }
  apply (Hn (length b)). lia.
Qed.

(** X5. Nothing is written to the caller's socket unless it is open
    ([readyState] 1), and an audio frame is written only when the
    stream id is known and not empty; every frame carries that id. *)
Theorem outbound_only_when_open `{Host} ev s s' effects obj :
  step ev s = Some (s', effects) → TwilioSend obj ∈ effects →
  readyState s = 1%Z
  ∧ match obj with
    | MediaOut sid _ => streamSid s = Some sid ∧ JS.truthy sid = true
    | ErrorOut => ∃ sid, ev = TwilioMessage (Some (Start sid))
    end.
Proof.
  intros Hs Hin.
  assert (Hplay : ∀ b, TwilioSend obj ∈ play s b →
            readyState s = 1%Z
            ∧ match obj with
              | MediaOut sid _ => streamSid s = Some sid ∧ JS.truthy sid = true
              | ErrorOut => ∃ sid, ev = TwilioMessage (Some (Start sid))
              end).
  { intros b (sid & p & Heq & ? & ? & ?)%play_elem.
    injection Heq as ->. by split. }
  destruct ev as [[[sid|payload| |]|]| | |n| | | |t f|now| |ready|i o now|i o].
  - cbn in Hs. unfold onStart in Hs. destruct (negb _).
    + injection Hs as <- <-.
      apply sendToTwilio_elem in Hin as [Heq Hr]. injection Heq as ->.
      split; [exact Hr|]. by exists sid.
    + injection Hs as <- <-.
      rewrite !elem_of_cons, elem_of_nil in Hin. by destruct Hin as [|[|[]]].
  - cbn in Hs. repeat case_match; injection Hs as <- <-;
      rewrite ?elem_of_cons, elem_of_nil in Hin; by repeat destruct Hin as [|Hin].
  - cbn in Hs. rewrite cleanup_shape in Hs. injection Hs as <- <-.
    apply elem_of_app in Hin as [Hin|Hin]; repeat case_match;
      rewrite ?elem_of_cons, elem_of_nil in Hin; by repeat destruct Hin as [|Hin].
  - injection Hs as <- <-. by apply elem_of_nil in Hin.
  - injection Hs as <- <-. by apply elem_of_nil in Hin.
  - cbn in Hs. rewrite cleanup_shape in Hs. injection Hs as <- <-.
    apply elem_of_app in Hin as [Hin|Hin]; repeat case_match;
      rewrite ?elem_of_cons, elem_of_nil in Hin; by repeat destruct Hin as [|Hin].
  - cbn in Hs. rewrite cleanup_shape in Hs. injection Hs as <- <-.
    apply elem_of_app in Hin as [Hin|Hin]; repeat case_match;
      rewrite ?elem_of_cons, elem_of_nil in Hin; by repeat destruct Hin as [|Hin].
  - injection Hs as <- <-. by apply elem_of_nil in Hin.
  - injection Hs as <- <-.
    rewrite elem_of_cons, elem_of_nil in Hin. by destruct Hin as [|[]].
  - cbn in Hs. rewrite cleanup_shape in Hs. injection Hs as <- <-.
    apply elem_of_app in Hin as [Hin|Hin]; repeat case_match;
      rewrite ?elem_of_cons, elem_of_nil in Hin; by repeat destruct Hin as [|Hin].
  - cbn in Hs. rewrite cleanup_shape in Hs. injection Hs as <- <-.
    apply elem_of_app in Hin as [Hin|Hin]; repeat case_match;
      rewrite ?elem_of_cons, elem_of_nil in Hin; by repeat destruct Hin as [|Hin].
  - injection Hs as <- <-. by apply elem_of_nil in Hin.
  - cbn in Hs. unfold onUtteranceEnd, processTranscript in Hs.
    repeat case_match; injection Hs as <- <-;
      rewrite ?elem_of_cons, elem_of_nil in Hin; by repeat destruct Hin as [|Hin].
  - injection Hs as <- <-. by apply elem_of_nil in Hin.
  - cbn in Hs. unfold onKeepAlive in Hs.
    repeat case_match; injection Hs as <- <-;
      rewrite ?elem_of_cons, elem_of_nil in Hin; by repeat destruct Hin as [|Hin].
  - cbn in Hs. destruct (inFlight s !! i) as [k|]; [|done]. cbn in Hs.
    destruct (resume now k o s) as [[[s1 e1] next]|] eqn:Hr; [|done]. cbn in Hs.
    assert (effects = e1) as -> by (by destruct next; injection Hs as <- <-).
    unfold resume, catchError in Hr.
    destruct k, o; repeat case_match; try discriminate; inversion Hr; subst;
      try (by apply Hplay in Hin);
      rewrite ?elem_of_cons, elem_of_nil in Hin; by repeat destruct Hin as [|Hin].
  - cbn in Hs. destruct (greetings s !! i) as [k|]; [|done]. cbn in Hs.
    destruct (resumeGreeting k o s) as [[e1 next]|] eqn:Hr; [|done]. cbn in Hs.
    assert (effects = e1) as -> by (by destruct next; injection Hs as <- <-).
    destruct k, o; cbn in Hr; try discriminate; injection Hr as <- <-;
      try (by apply Hplay in Hin);
      rewrite ?elem_of_cons, elem_of_nil in Hin; by repeat destruct Hin as [|Hin].
Qed.

Lemma outbound_only_when_open_witness :
  readyState (set_inFlight [AwaitMulaw] speaking) = 1%Z
  ∧ streamSid (set_inFlight [AwaitMulaw] speaking) = Some (JS.lit "MZ0001")
    ∧ JS.truthy (JS.lit "MZ0001") = true.
Proof.
  apply (@outbound_only_when_open latinHost
           (Settle 0 (Audio (replicate 200 x7f)) 7000)
           (set_inFlight [AwaitMulaw] speaking)
           (set_inFlight [] (finish 7000 (set_inFlight [AwaitMulaw] speaking)))
           (play (set_inFlight [AwaitMulaw] speaking) (replicate 200 x7f))
           (MediaOut (JS.lit "MZ0001") (replicate 160 x7f))).
  - reflexivity.
  - vm_compute. apply list_elem_of_here.
Defined.

(** ** The hangover window *)

(** X6. The window that [finally] opens lasts exactly 1000 ms. After
    a cycle ended at time [now], whatever fragments are heard, an end
    of utterance strictly before [now + 1000] only empties the pending
    transcript; from [now + 1000] on, the pending text that passes the
    noise gate is released: it is put in the history, the reply is
    asked for and the session is speaking again. Fragments heard
    inside the window are not dropped by themselves: they are part of
    the text released when the end of utterance comes after it. *)
Theorem hangover_boundary `{Host} s now fragments t :
  let s1 := heard fragments (finish now s) in
  ((t < now + 1000)%Z →
   step (UtteranceEnd t) s1 = Some (set_pendingTranscript [] s1, []))
  ∧ ((now + 1000 ≤ t)%Z →
     shouldIgnoreTranscript (JS.trim (pendingTranscript s1)) = false →
     ∃ s2,
       step (UtteranceEnd t) s1
       = Some (s2, [CallGenerate
                      (messages s ++ [userTurn (JS.trim (pendingTranscript s1))])])
       ∧ isPlaying s2 = true
       ∧ messages s2 = messages s ++ [userTurn (JS.trim (pendingTranscript s1))]
       ∧ inFlight s2 = inFlight s ++ [AwaitReply]).
Proof.
  intros s1.
  destruct (heard_pending fragments (finish now s)) as [p Hp].
  assert (Hi : ignoreTranscriptsUntil s1 = (now + 1000)%Z)
    by (unfold s1; by rewrite Hp).
  assert (Hpl : isPlaying s1 = false) by (unfold s1; by rewrite Hp).
  assert (Hm : messages s1 = messages s) by (unfold s1; by rewrite Hp).
  assert (Hf : inFlight s1 = inFlight s) by (unfold s1; by rewrite Hp).
  split.
  - intros Hearly. cbn. f_equal. unfold onUtteranceEnd.
    rewrite Hi. by destruct (decide _).
  - intros Hlate Hkeep. cbn.
    rewrite (utteranceEnd_released t s1 Hpl); [|rewrite Hi; lia|done].
    rewrite Hm, Hf. eexists. split; [reflexivity|]. done.
Qed.

Lemma hangover_boundary_witness :
  ∃ s2,
    @step latinHost (UtteranceEnd 10000)
      (heard [(MEANINGFUL, true)] (finish 9000 inCall))
    = Some (s2, [CallGenerate [userTurn MEANINGFUL]])
    ∧ isPlaying s2 = true.
Proof.
  destruct (proj2 (@hangover_boundary latinHost inCall 9000%Z
                     [(MEANINGFUL, true)] 10000%Z))
    as (s2 & Hs & Hp & _).
  - lia.
  - vm_compute. reflexivity.
  - exists s2. split; [exact Hs|exact Hp].
Defined.

(** ** The number of frames *)

Lemma play_closed s b : ¬ canPlay s → play s b = [].
Proof.
  intros Hno. unfold play.
  assert (Hsend : ∀ p, sendMediaToTwilio p s = []).
  { intros p. unfold sendMediaToTwilio, sendToTwilio.
    destruct (streamSid s) as [sid|] eqn:Hsid; [|done].
    destruct (JS.truthy sid) eqn:Ht; cbn; [|done].
    destruct (decide (readyState s ≠ 1%Z)) as [|Hopen]; [done|].
    destruct Hno. split; [by destruct (decide (readyState s = 1%Z))|].
    by exists sid. }
  assert (Hn : ∀ n i, length b - i ≤ n → playFrom s b i = []).
  { induction n as [|n IH]; intros i Hi.
    - by rewrite playFrom_end by lia.
    - destruct (decide (i < length b)); [|by rewrite playFrom_end by lia].
      rewrite playFrom_next, Hsend by done. apply IH. rewrite CHUNK_160. lia. }
  apply (Hn (length b)). lia.
Qed.

Lemma playFrom_count s b : canPlay s → ∀ n i,
  length b - i ≤ n →
  length (mediaPayloads (playFrom s b i)) = (length b - i + 159) / 160.
Proof.
  intros Hs. induction n as [|n IH]; intros i Hi.
  - rewrite playFrom_end by lia. replace (length b - i) with 0 by lia. reflexivity.
  - destruct (decide (i < length b)) as [Hlt|Hge].
    + rewrite playFrom_next, mediaPayloads_app, mediaPayloads_send_open by done.
      cbn [length app]. rewrite IH by (rewrite CHUNK_160; lia).
      rewrite CHUNK_160.
      destruct (decide (i + 160 ≤ length b)) as [Hfull|Hshort].
      * replace (length b - i + 159) with ((length b - (i + 160) + 159) + 1 * 160)
          by lia.
        rewrite Nat.div_add by lia. lia.
      * replace (length b - (i + 160)) with 0 by lia.
        rewrite (Nat.div_small 159) by lia.
        assert (Hone : (length b - i + 159) / 160 = 1); [|lia].
        symmetry. apply (Nat.div_unique _ _ 1 (length b - i - 1)); lia.
    + rewrite playFrom_end by lia. replace (length b - i) with 0 by lia.
      reflexivity.
Qed.

(** X7. A buffer of [n] bytes is played as [ceil(n / 160)] frames
    when the socket takes frames: none for an empty buffer, one more
    for a remainder. When the socket is not open, or the stream id is
    missing or empty, the loop runs and writes nothing at all. *)
Theorem frame_count s buf :
  (canPlay s →
   length (mediaPayloads (play s buf)) = (length buf + 159) / 160)
  ∧ (¬ canPlay s → play s buf = []).
Proof.
  split.
  - intros Hs. unfold play. rewrite (playFrom_count s buf Hs (length buf) 0) by lia.
    by rewrite Nat.sub_0_r.
  - apply play_closed.
Qed.

Lemma frame_count_witness :
  length (mediaPayloads (play inCall (replicate 481 x7f))) = 4
  ∧ play (set_readyState 3 inCall) (replicate 481 x7f) = [].
Proof.
  destruct (frame_count inCall (replicate 481 x7f)) as [Hopen _].
  destruct (frame_count (set_readyState 3 inCall) (replicate 481 x7f))
    as [_ Hclosed].
  split.
  - rewrite Hopen; [reflexivity|].
    split; [reflexivity|]. exists (JS.lit "MZ0001"). split; reflexivity.
  - apply Hclosed. intros [Hr _]. discriminate Hr.
Defined.

(** ** The pending transcript *)

Lemma trimStart_split a :
  ∃ w, a = w ++ JS.trimStart a ∧ forallb JS.isWhiteSpace w = true.
Proof.
  induction a as [|c a (w & Ha & Hw)]; [by exists []|]. cbn.
  destruct (JS.isWhiteSpace c) eqn:Hc.
  - exists (c :: w). split; [by rewrite Ha at 1|]. cbn. by rewrite Hc.
  - by exists [].
Qed.

Lemma trimStart_white w a :
  forallb JS.isWhiteSpace w = true → JS.trimStart (w ++ a) = JS.trimStart a.
Proof.
  induction w as [|c w IH]; [done|]. cbn.
  intros [Hc Hw]%andb_true_iff. rewrite Hc. by apply IH.
Qed.

Lemma trimStart_idem a : JS.trimStart (JS.trimStart a) = JS.trimStart a.
Proof.
  induction a as [|c a IH]; [done|]. cbn.
  destruct (JS.isWhiteSpace c) eqn:Hc; [done|]. cbn. by rewrite Hc.
Qed.

Lemma trimStart_app a b :
  JS.trimStart a ≠ [] → JS.trimStart (a ++ b) = JS.trimStart a ++ b.
Proof.
  induction a as [|c a IH]; [done|]. cbn.
  destruct (JS.isWhiteSpace c); [apply IH|done].
Qed.

Lemma trimEnd_app u q :
  JS.trimEnd q ≠ [] → JS.trimEnd (u ++ q) = u ++ JS.trimEnd q.
Proof.
  unfold JS.trimEnd. intros Hq. rewrite rev_app_distr, trimStart_app.
  - by rewrite rev_app_distr, rev_involutive.
  - intros Hnil. by rewrite Hnil in Hq.
Qed.

Lemma trimEnd_split z :
  ∃ w, z = JS.trimEnd z ++ w ∧ forallb JS.isWhiteSpace w = true.
Proof.
  destruct (trimStart_split (rev z)) as (w & Hz & Hw).
  exists (rev w). split.
  - unfold JS.trimEnd. rewrite <- rev_app_distr, <- Hz. by rewrite rev_involutive.
  - rewrite forallb_forall in Hw |- *. intros x Hx. apply Hw. by apply in_rev.
Qed.

Lemma trimEnd_idem z : JS.trimEnd (JS.trimEnd z) = JS.trimEnd z.
Proof. unfold JS.trimEnd. by rewrite rev_involutive, trimStart_idem. Qed.

Lemma trimStart_fixed_head a :
  JS.trimStart a = a → a = [] ∨ ∃ c r, a = c :: r ∧ JS.isWhiteSpace c = false.
Proof.
  destruct a as [|c a]; [by left|]. cbn.
  destruct (JS.isWhiteSpace c) eqn:Hc; [|right; eauto].
  intros Heq. pose proof (trimStart_length a) as Hl. rewrite Heq in Hl.
  cbn in Hl. lia.
Qed.

Lemma trimStart_trimEnd z :
  JS.trimStart z = z → JS.trimStart (JS.trimEnd z) = JS.trimEnd z.
Proof.
  intros Hz. destruct (trimStart_fixed_head z Hz) as [->|(c & r & -> & Hc)];
    [done|].
  destruct (trimEnd_split (c :: r)) as (w & Heq & _).
  destruct (JS.trimEnd (c :: r)) as [|d e]; [done|].
  injection Heq as <- _. cbn. by rewrite Hc.
Qed.

Lemma trim_idem x : JS.trim (JS.trim x) = JS.trim x.
Proof.
  unfold JS.trim.
  rewrite (trimStart_trimEnd _ (trimStart_idem x)). apply trimEnd_idem.
Qed.

Lemma trim_fixed_parts p :
  JS.trim p = p → JS.trimStart p = p ∧ JS.trimEnd p = p.
Proof.
  intros Hp. assert (Hs : JS.trimStart p = p).
  { rewrite <- Hp at 1. unfold JS.trim.
    rewrite (trimStart_trimEnd _ (trimStart_idem p)). exact Hp. }
  split; [exact Hs|]. unfold JS.trim in Hp. by rewrite Hs in Hp.
Qed.

Lemma trimEnd_nil_trim t : JS.trimEnd t = [] → JS.trim t = [].
Proof.
  intros Hnil. destruct (trimEnd_split t) as (w & Ht & Hw).
  rewrite Hnil in Ht. cbn in Ht. subst w.
  unfold JS.trim.
  assert (JS.trimStart t = []) as ->; [|done].
  rewrite <- (app_nil_r t). by rewrite trimStart_white.
Qed.

Lemma onTranscript_blank t f s :
  JS.trim t = [] → onTranscript t f s = s.
Proof.
  intros Ht. unfold onTranscript. rewrite Ht. cbn. by rewrite orb_true_r.
Qed.

Lemma onTranscript_first t f s :
  JS.trim t ≠ [] → pendingTranscript s = [] →
  onTranscript t f s = set_pendingTranscript (JS.trim t) s.
Proof.
  intros Ht Hp. unfold onTranscript.
  assert (t ≠ []) by (by intros ->).
  destruct t as [|c t]; [done|].
  assert (JS.truthy (JS.trim (c :: t)) = true) as ->
    by (by destruct (JS.trim (c :: t))).
  cbn [JS.truthy negb orb]. rewrite Hp. cbn [app].
  change (JS.lit " " ++ c :: t) with (32%N :: c :: t).
  assert (JS.trim (32%N :: c :: t) = JS.trim (c :: t)) as -> by reflexivity.
  by destruct f.
Qed.

Lemma onTranscript_next t f s :
  JS.trim t ≠ [] → pendingTranscript s ≠ [] →
  JS.trim (pendingTranscript s) = pendingTranscript s →
  onTranscript t f s
  = set_pendingTranscript (pendingTranscript s ++ 32%N :: JS.trimEnd t) s.
Proof.
  intros Ht Hne Hp. unfold onTranscript.
  destruct t as [|c t]; [done|].
  assert (JS.truthy (JS.trim (c :: t)) = true) as ->
    by (by destruct (JS.trim (c :: t))).
  cbn [JS.truthy negb orb].
  assert (JS.trim (pendingTranscript s ++ JS.lit " " ++ c :: t)
          = pendingTranscript s ++ 32%N :: JS.trimEnd (c :: t)) as ->;
    [|by destruct f].
  destruct (trim_fixed_parts _ Hp) as [Hs He].
  unfold JS.trim. rewrite trimStart_app, Hs by (by rewrite Hs).
  change (JS.lit " " ++ c :: t) with ([32%N] ++ c :: t).
  rewrite (app_assoc (pendingTranscript s)), trimEnd_app.
  - by rewrite <- app_assoc.
  - intros Hnil. apply trimEnd_nil_trim in Hnil. by rewrite Hnil in Ht.
Qed.

Lemma joined_trimmed p t :
  JS.trim p = p → p ≠ [] → JS.trim t ≠ [] →
  JS.trim (p ++ 32%N :: JS.trimEnd t) = p ++ 32%N :: JS.trimEnd t
  ∧ p ++ 32%N :: JS.trimEnd t ≠ [].
Proof.
  intros Hp Hne Ht. split; [|by destruct p].
  destruct (trim_fixed_parts _ Hp) as [Hs He].
  unfold JS.trim. rewrite trimStart_app, Hs by (by rewrite Hs).
  change (32%N :: JS.trimEnd t) with ([32%N] ++ JS.trimEnd t).
  rewrite (app_assoc p), trimEnd_app.
  - rewrite trimEnd_idem. by rewrite <- app_assoc.
  - rewrite trimEnd_idem. intros Hnil. apply trimEnd_nil_trim in Hnil.
    by rewrite Hnil in Ht.
Qed.

Lemma spoken_cons t f fragments :
  spoken ((t, f) :: fragments)
  = if decide (JS.trim t ≠ []) then t :: spoken fragments else spoken fragments.
Proof.
  unfold spoken. cbn [map fst]. destruct (decide (JS.trim t ≠ [])).
  - by rewrite filter_cons_True.
  - by rewrite filter_cons_False.
Qed.

Lemma heard_from fragments : ∀ s,
  JS.trim (pendingTranscript s) = pendingTranscript s →
  pendingTranscript s ≠ [] →
  pendingTranscript (heard fragments s)
  = pendingTranscript s ++ flat_map (λ u, 32%N :: JS.trimEnd u) (spoken fragments)
  ∧ JS.trim (pendingTranscript (heard fragments s))
    = pendingTranscript (heard fragments s).
Proof.
  induction fragments as [|[t f] fragments IH]; intros s Hp Hne.
  - cbn. by rewrite app_nil_r.
  - change (heard ((t, f) :: fragments) s) with (heard fragments (onTranscript t f s)).
    rewrite spoken_cons. destruct (decide (JS.trim t ≠ [])) as [Ht|Ht].
    + rewrite (onTranscript_next t f s Ht Hne Hp).
      destruct (joined_trimmed _ t Hp Hne Ht) as [Hp' Hne'].
      destruct (IH (set_pendingTranscript (pendingTranscript s ++ 32%N :: JS.trimEnd t) s))
        as [-> Htr]; [exact Hp'|exact Hne'|].
      split; [|exact Htr]. cbn. by rewrite <- app_assoc.
    + rewrite onTranscript_blank by (by destruct (JS.trim t); [|destruct Ht]).
      by apply IH.
Qed.

(** X8. From an empty pending transcript, the fragments of an
    utterance add up to this text: blank fragments are passed over;
    the first other one is trimmed; each later one is appended after
    one space with the white space at its end removed and the white
    space at its start kept. Interim and final fragments are treated
    alike, so a text that the recognizer revises is there once per
    revision. The result has no white space at either end. *)
Theorem fragments_join `{Host} s fragments :
  pendingTranscript s = [] →
  pendingTranscript (heard fragments s) = joined (spoken fragments)
  ∧ JS.trim (pendingTranscript (heard fragments s))
    = pendingTranscript (heard fragments s)
  ∧ run (fragmentEvents fragments) s
    = Some (set_pendingTranscript (joined (spoken fragments)) s, []).
Proof.
  intros Hp.
  assert (Hmain : pendingTranscript (heard fragments s) = joined (spoken fragments)
                  ∧ JS.trim (pendingTranscript (heard fragments s))
                    = pendingTranscript (heard fragments s)).
  { revert s Hp. induction fragments as [|[t f] fragments IH]; intros s Hp.
    - cbn. by rewrite Hp.
    - change (heard ((t, f) :: fragments) s)
        with (heard fragments (onTranscript t f s)).
      rewrite spoken_cons. destruct (decide (JS.trim t ≠ [])) as [Ht|Ht].
      + rewrite (onTranscript_first t f s Ht Hp).
        destruct (heard_from fragments (set_pendingTranscript (JS.trim t) s))
          as [-> Htr]; [apply trim_idem|done|].
        by split.
      + rewrite onTranscript_blank by (by destruct (JS.trim t); [|destruct Ht]).
        by apply IH. }
  destruct Hmain as [Hj Htr]. split; [exact Hj|]. split; [exact Htr|].
  rewrite run_fragments. f_equal. f_equal.
  destruct (heard_pending fragments s) as [p Hh].
  rewrite Hh in Hj |- *. cbn in Hj. by rewrite Hj.
Qed.

Lemma fragments_join_witness :
  pendingTranscript
    (heard [(JS.lit " mujhe ", false); (JS.lit "  ", true);
            (JS.lit " mujhe chahiye ", true)] inCall)
  = JS.lit "mujhe  mujhe chahiye".
Proof.
  apply (proj1 (@fragments_join latinHost inCall
                  [(JS.lit " mujhe ", false); (JS.lit "  ", true);
                   (JS.lit " mujhe chahiye ", true)] eq_refl)).
Defined.

(** ** The shape of the history *)

Lemma answered_snoc_user ms : ∀ b text,
  answered b (ms ++ [userTurn text]) = answered b ms.
Proof.
  induction ms as [|m ms IH]; intros b text; [done|]. cbn.
  destruct (role m); by rewrite IH.
Qed.

Lemma answered_snoc_assistant h : ∀ b text reply,
  answered b ((h ++ [userTurn text]) ++ [assistantTurn reply])
  = answered b (h ++ [userTurn text]).
Proof.
  induction h as [|m h IH]; intros b text reply; [done|]. cbn.
  destruct (role m); by rewrite IH.
Qed.

Lemma step_historyInv `{Host} ev s s' effects :
  historyInv s → step ev s = Some (s', effects) →
  historyInv s'
  ∧ Forall (λ h, endsWithUser h ∧ wellFormed h) (generations effects).
Proof.
  intros (Hone & [Hg Ha] & Hlast) Hs.
  pose proof (step_oneAtATime _ _ _ _ Hone Hs) as Hone'.
  destruct ev as [msg| | |n| | | |t f|now| |ready|i outcome now|i o];
    try (destruct (step_frame _ _ _ _ Hs) as (_ & Hf & Hm & _ & Hgen);
         [done|done|]; rewrite Hgen; unfold historyInv; by rewrite Hm, Hf).
  - destruct (utteranceEnd_cases _ _ _ _ Hs)
      as [[-> ->]|(_ & _ & Hgate & _ & Hm & _ & _ & ->)].
    + by repeat split.
    + assert (wellFormed (messages s')) as Hwf.
      { rewrite Hm. split.
        - apply Forall_app. split; [done|]. apply Forall_singleton.
          intros _. cbn. split; [done|apply trim_idem].
        - by rewrite (answered_snoc_user (messages s)). }
      assert (endsWithUser (messages s')) as Hend by (rewrite Hm; by eexists _, _).
      split; [by split|]. cbn. apply Forall_singleton. by split.
  - cbn in Hs. destruct (inFlight s !! i) as [k|] eqn:Hk; [|done]. cbn in Hs.
    destruct (resume now k outcome s) as [[[s1 e1] next]|] eqn:Hr; [|done].
    cbn in Hs. destruct (resume_cases _ _ _ _ _ _ _ Hr) as (Hgen & Hnext & Hm).
    destruct Hone as [[_ [k0 Hf]]|[_ Hf]]; [|by rewrite Hf in Hk].
    rewrite Hf in Hk. destruct i; [|done]. injection Hk as ->.
    assert (wellFormed (messages s1)) as Hwf.
    { destruct k, outcome; rewrite Hm; try done.
      destruct (Hlast Hf) as (h & u & Hh). rewrite Hh in Hg, Ha |- *.
      split.
      - apply Forall_app. split; [done|]. by apply Forall_singleton.
      - by rewrite answered_snoc_assistant. }
    assert (inFlight s' ≠ [AwaitReply]) as Hnot.
    { destruct next as [k'|]; injection Hs as <- <-; cbn.
      - destruct Hnext as (Hlt & _ & _ & ->). rewrite Hf. cbn.
        intros [= ->]. destruct k; cbn in Hlt; lia.
      - destruct Hnext as (_ & _ & -> & _). by rewrite Hf. }
    assert (messages s' = messages s1 ∧ effects = e1) as [Hm' ->]
      by (by destruct next; injection Hs as <- <-).
    rewrite Hgen. split; [|done]. unfold historyInv. by rewrite Hm'.
Qed.

Lemma run_historyInv `{Host} evs : ∀ s s' effects,
  historyInv s → run evs s = Some (s', effects) →
  historyInv s'
  ∧ Forall (λ h, endsWithUser h ∧ wellFormed h) (generations effects).
Proof.
  induction evs as [|ev evs IH]; intros s s' effects Hinv Hr.
  - by injection Hr as <- <-.
  - cbn in Hr. destruct (step ev s) as [[s1 e1]|] eqn:Hs; [|done]. cbn in Hr.
    destruct (run evs s1) as [[s2 e2]|] eqn:Hr2; [|done]. cbn in Hr.
    injection Hr as <- <-.
    destruct (step_historyInv _ _ _ _ Hinv Hs) as [Hinv1 Hg1].
    destruct (IH _ _ _ Hinv1 Hr2) as [Hinv2 Hg2]. split; [done|].
    unfold generations. rewrite omap_app. by apply Forall_app.
Qed.

(** X9. The history of a connection is a dialogue, in every state
    the connection can reach: each user turn is a trimmed text that
    the noise gate let through, each assistant turn comes right after
    a user turn (so the history never starts with, nor repeats, an
    assistant turn), and each history handed to the reply generator
    has this shape and ends with the caller's newest turn. *)
Theorem history_is_dialogue `{Host} evs s effects :
  run evs initial = Some (s, effects) →
  wellFormed (messages s)
  ∧ Forall (λ h, endsWithUser h ∧ wellFormed h) (generations effects).
Proof.
  intros Hr. destruct (run_historyInv evs initial s effects) as [(_ & Hwf & _) Hg];
    [|exact Hr|done].
  split; [by right|]. split; [|done]. split; [constructor|done].
Qed.

Lemma history_is_dialogue_witness :
  ∃ s effects,
    @run latinHost
      [TwilioMessage (Some (Start (Some (JS.lit "MZ0001"))));
       Transcript MEANINGFUL true; UtteranceEnd 5000;
       Settle 0 (Reply REPLY) 6000]
      initial = Some (s, effects)
    ∧ messages s = [userTurn MEANINGFUL; assistantTurn REPLY]
    ∧ @wellFormed latinHost (messages s).
Proof.
  eexists _, _. split; [vm_compute; reflexivity|]. split; [reflexivity|].
  refine (proj1 (@history_is_dialogue latinHost
                   [TwilioMessage (Some (Start (Some (JS.lit "MZ0001"))));
                    Transcript MEANINGFUL true; UtteranceEnd 5000;
                    Settle 0 (Reply REPLY) 6000] _
                   [CallTextToSpeech GREETING_TEXT; DeepgramListen 0;
                    CallGenerate [userTurn MEANINGFUL];
                    CallTextToSpeech REPLY] _)).
  vm_compute; reflexivity.
Defined.

(** ** The noise gate and inherited properties *)

Lemma protoAccessor_not_method : JS.protoAccessor ∉ JS.objectPrototypeMethods.
Proof. apply (bool_decide_unpack _). vm_compute. exact I. Qed.

Lemma increment_notNumeric o k x :
  JS.getOwn o x = Some JS.NotNumeric →
  JS.getOwn (JS.increment o k) x = Some JS.NotNumeric.
Proof.
  intros Hx. unfold JS.increment.
  destruct (JS.getOwn o k) as [[n|]|] eqn:Hk; repeat case_decide;
    rewrite ?getOwn_setOwn; try case_decide; subst; congruence.
Qed.

Lemma increment_methods o k :
  (∀ x n, x ∈ JS.objectPrototypeMethods → JS.getOwn o x ≠ Some (JS.Num n)) →
  ∀ x n, x ∈ JS.objectPrototypeMethods →
         JS.getOwn (JS.increment o k) x ≠ Some (JS.Num n).
Proof.
  intros Hclean x n Hx. specialize (Hclean x). unfold JS.increment.
  destruct (JS.getOwn o k) as [[m|]|] eqn:Hk; repeat case_decide;
    rewrite ?getOwn_setOwn; try case_decide; subst;
    try congruence; try (by apply Hclean).
  by destruct (Hclean m Hx).
Qed.

Lemma increment_method_key o k :
  (∀ x n, x ∈ JS.objectPrototypeMethods → JS.getOwn o x ≠ Some (JS.Num n)) →
  k ∈ JS.objectPrototypeMethods →
  JS.getOwn (JS.increment o k) k = Some JS.NotNumeric.
Proof.
  intros Hclean Hk. unfold JS.increment.
  destruct (JS.getOwn o k) as [[m|]|] eqn:Hget.
  - by destruct (Hclean k m Hk).
  - rewrite getOwn_setOwn. by rewrite decide_True.
  - rewrite decide_False
      by (intros ->; by apply protoAccessor_not_method).
    rewrite decide_True by done. rewrite getOwn_setOwn. by rewrite decide_True.
Qed.

Lemma fold_increment_poisoned keys : ∀ o,
  (∀ x n, x ∈ JS.objectPrototypeMethods → JS.getOwn o x ≠ Some (JS.Num n)) →
  (∃ k, k ∈ keys ∧ k ∈ JS.objectPrototypeMethods)
  ∨ (∃ x, JS.getOwn o x = Some JS.NotNumeric) →
  ∃ x, JS.getOwn (fold_left JS.increment keys o) x = Some JS.NotNumeric.
Proof.
  induction keys as [|k keys IH]; intros o Hclean Hsome.
  - destruct Hsome as [(k & Hin & _)|Hx]; [by apply elem_of_nil in Hin|done].
  - cbn. apply IH; [by apply increment_methods|].
    destruct Hsome as [(k' & Hin & Hm)|[x Hx]].
    + apply elem_of_cons in Hin as [->|Hin]; [|left; eauto].
      right. exists k. by apply increment_method_key.
    + right. exists x. by apply increment_notNumeric.
Qed.

Lemma maxStep_NaN vs : fold_left JS.maxStep vs JS.NaN = JS.NaN.
Proof. induction vs as [|v vs IH]; [done|]. exact IH. Qed.

Lemma mathMax_NaN vs : ∀ acc,
  JS.NotNumeric ∈ vs → fold_left JS.maxStep vs acc = JS.NaN.
Proof.
  induction vs as [|v vs IH]; intros acc Hin; [by apply elem_of_nil in Hin|].
  cbn. apply elem_of_cons in Hin as [<-|Hin].
  - assert (JS.maxStep acc JS.NotNumeric = JS.NaN) as -> by (by destruct acc).
    apply maxStep_NaN.
  - by apply IH.
Qed.

Lemma poisoned_count keys :
  (∃ k, k ∈ keys ∧ k ∈ JS.objectPrototypeMethods) →
  JS.mathMax (JS.values (fold_left JS.increment keys [])) = JS.NaN.
Proof.
  intros Hk.
  destruct (fold_increment_poisoned keys []) as [x Hx]; [done|by left|].
  apply mathMax_NaN. unfold JS.values. apply list_elem_of_fmap.
  exists (x, JS.NotNumeric). split; [done|].
  apply entries_elem. by apply getOwn_elem.
Qed.

(** X10. A word that names a method every object inherits spoils the
    count: when the key of one word of the utterance is such a name
    ("constructor" is the one that is its own lower case),
    [Math.max] gives [NaN] and the utterance is not classified as
    repetitive noise, however often another word is repeated in it. *)
Theorem inherited_name_never_noise `{Host} text w :
  w ∈ noiseWords text → noiseKey w ∈ JS.objectPrototypeMethods →
  isRepetitiveNoise text = false.
Proof.
  intros Hw Hk. unfold isRepetitiveNoise.
  destruct (bool_decide _); [done|].
  rewrite fold_increment_keys, poisoned_count; [done|].
  exists (noiseKey w). split; [|done]. apply list_elem_of_fmap. eauto.
Qed.

Lemma inherited_name_never_noise_witness :
  @isRepetitiveNoise latinHost (JS.lit "ji ji ji ji Constructor.") = false.
Proof.
  apply (@inherited_name_never_noise latinHost
           (JS.lit "ji ji ji ji Constructor.") (JS.lit "Constructor.")).
  - apply (bool_decide_unpack _). vm_compute. exact I.
  - apply (bool_decide_unpack _). vm_compute. exact I.
Defined.

(** X11. The classifier answers "repetitive noise" only for what it
    is meant for: when it does, some key is there at least three
    times, makes at least 60 % of the words, and is a filler phrase or
    at most three code units long; and no word of the utterance names
    an inherited method. *)
Theorem noise_only_when_dominant `{Host} text :
  isRepetitiveNoise text = true →
  let keys := map noiseKey (noiseWords text) in
  Forall (λ key, key ∉ JS.objectPrototypeMethods) keys
  ∧ ∃ k, 3 ≤ occurrences k keys
         ∧ 3 * length keys ≤ 5 * occurrences k keys
         ∧ (k ∈ FILLER_PHRASES ∨ length k ≤ 3).
Proof.
  intros Hn keys. unfold isRepetitiveNoise in Hn.
  destruct (bool_decide _); [done|]. rewrite fold_increment_keys in Hn.
  fold keys in Hn.
  assert (Hlen : length keys = length (noiseWords text)) by apply length_map.
  destruct (JS.mathMax _) as [m| |] eqn:Hmax; try done.
  assert (Hclean : Forall (λ key, key ∉ JS.objectPrototypeMethods) keys).
  { apply Forall_forall. intros k Hin Hm.
    rewrite poisoned_count in Hmax by eauto. done. }
  split; [exact Hclean|].
  destruct (fold_increment_tallies keys [] [] tallies_nil Hclean) as [Hnd Hget].
  cbn [app] in Hget.
  destruct (3 <=? m)%N eqn:H3; [|done].
  destruct (3 * N.of_nat (length (noiseWords text)) <=? 5 * m)%N eqn:Hshare;
    [|done].
  cbn [andb] in Hn.
  destruct (find _ _) as [[k v]|] eqn:Hfind; [|done].
  cbn -[JS.has FILLER_PHRASES] in Hn.
  apply find_some in Hfind as [Hin Heq]. cbn in Heq.
  destruct v as [n|]; [|done]. apply bool_decide_eq_true in Heq as ->.
  rewrite <- list_elem_of_In, entries_elem in Hin.
  apply (elem_getOwn _ _ _ Hnd) in Hin. rewrite Hget in Hin.
  case_decide; [done|]. injection Hin as Hm.
  apply N.leb_le in H3, Hshare. exists k.
  split; [lia|]. split; [lia|].
  destruct (JS.has FILLER_PHRASES k) eqn:Hhas.
  - left. by apply has_true.
  - right. cbn [orb] in Hn.
    destruct (bool_decide (length k ≤ 3)) eqn:Hshort; [|done].
    by apply bool_decide_eq_true in Hshort.
Qed.

Lemma noise_only_when_dominant_witness :
  ∃ k, 3 ≤ occurrences k
             (map (@noiseKey latinHost) (noiseWords (JS.lit "Ok ok ok. theek OK")))
       ∧ (k ∈ FILLER_PHRASES ∨ length k ≤ 3).
Proof.
  destruct (@noise_only_when_dominant latinHost (JS.lit "Ok ok ok. theek OK"))
    as [_ (k & H3 & _ & Hk)]; [vm_compute; reflexivity|].
  by exists k.
Defined.

(** X12. The whole-phrase test of [isFillerOnly] never decides. A
    phrase of the set either is shorter than [MIN_REAL_LENGTH], and
    then the length test has answered before, or has more than one
    word: the answer is that of the length test and of the
    word-by-word test alone. *)
Theorem whole_phrase_test_never_decides `{Host} text :
  let t := toLowerCase (JS.trim (JS.replaceSpaces text)) in
  let words := filter (λ w, JS.truthy w) (JS.splitSpaces t) in
  (JS.has FILLER_PHRASES t = true →
   (length t < MIN_REAL_LENGTH)%nat ∨ length words ≠ 1%nat)
  ∧ isFillerOnly text
    = bool_decide (length t < MIN_REAL_LENGTH)%nat
      || (forallb (λ w, JS.has FILLER_PHRASES w
                        || JS.has FILLER_PHRASES (JS.removeAll PUNCTUATION w))
            words
          && bool_decide (length words ≤ 4)%nat).
Proof.
  intros t words.
  assert (Hdead : JS.has FILLER_PHRASES t = true →
                  (length t < MIN_REAL_LENGTH)%nat ∨ length words ≠ 1%nat).
  { subst words. generalize t. clear t. intros t Hin. apply has_true in Hin.
    unfold FILLER_PHRASES in Hin. cbn [map] in Hin.
    repeat (apply elem_of_cons in Hin as [->|Hin];
            [first [left; vm_compute; lia | right; vm_compute; lia]|]).
    by apply elem_of_nil in Hin. }
  split; [exact Hdead|].
  unfold isFillerOnly. fold t. fold words.
  destruct (bool_decide (length t < MIN_REAL_LENGTH)%nat) eqn:Hshort; [done|].
  apply bool_decide_eq_false in Hshort. cbn [orb].
  destruct (bool_decide (length words = 1%nat)) eqn:Hone;
    [|cbn [andb]; by destruct (_ && _)].
  apply bool_decide_eq_true in Hone.
  destruct (JS.has FILLER_PHRASES t) eqn:Hhas;
    [|cbn [andb]; by destruct (_ && _)].
  destruct (Hdead eq_refl); [lia|done].
Qed.

Lemma whole_phrase_test_never_decides_witness :
  (length (@toLowerCase latinHost (JS.trim (JS.replaceSpaces (JS.lit " Thank  You "))))
   < MIN_REAL_LENGTH)%nat
  ∨ length (filter (λ w, JS.truthy w)
              (JS.splitSpaces
                 (@toLowerCase latinHost
                    (JS.trim (JS.replaceSpaces (JS.lit " Thank  You "))))))
    ≠ 1%nat.
Proof.
  apply (proj1 (@whole_phrase_test_never_decides latinHost (JS.lit " Thank  You "))).
  vm_compute. reflexivity.
Defined.

(** ** The tool protocol of reply generation *)

Section GeneratorProtocol.
Import Pipeline.
Context {World : Type} `{Services World}.

Lemma requests_app log1 log2 :
  requests (log1 ++ log2) = requests log1 ++ requests log2.
Proof. unfold requests. by rewrite omap_app. Qed.

Lemma runToolCalls_log tcs : ∀ allMessages w,
  match runToolCalls allMessages tcs w with
  | (_, log, Returned all') =>
      log = map toolRun tcs
      ∧ ∃ results, length results = length tcs
                   ∧ all' = allMessages ++ toolMessages tcs results
  | (_, log, Thrown) =>
      ∃ n, n < length tcs ∧ log = map toolRun (take (S n) tcs)
  end.
Proof.
  induction tcs as [|tc tcs IH]; intros allMessages w.
  - cbn. split; [done|]. exists []. by rewrite app_nil_r.
  - cbn [runToolCalls]. unfold bind, call. fold (toolArguments tc).
    destruct (runTool _ _ w) as [w1 [result|]].
    + specialize (IH (allMessages ++ [Tool (id tc) result]) w1).
      destruct (runToolCalls _ tcs w1) as [[w2 log2] [all2|]].
      * destruct IH as [-> (results & Hlen & ->)]. split; [done|].
        exists (result :: results). cbn. split; [by rewrite Hlen|].
        by rewrite <- app_assoc.
      * destruct IH as (n & Hn & ->). exists (S n). cbn. split; [lia|done].
    + exists 0. cbn. split; [lia|]. by rewrite take_0.
Qed.

Lemma requests_toolRuns tcs : requests (map toolRun tcs) = [].
Proof. induction tcs as [|tc tcs IH]; [done|]. exact IH. Qed.

Lemma turns_requests maxTurns : ∀ allMessages w,
  let log := (turns maxTurns allMessages w).1.2 in
  (maxTurns = 0 ∧ requests log = [])
  ∨ ∃ rest, requests log = allMessages :: rest
            ∧ chained followsFrom (allMessages :: rest).
Proof.
  induction maxTurns as [|n IH]; intros allMessages w; [by left|].
  right. cbn zeta. rewrite turns_S.
  destruct (chatCompletionsCreate allMessages w) as [w1 [[msg|]|]];
    [|by exists []|by exists []].
  destruct (tool_calls msg) as [[|tc tcs]|] eqn:Htc;
    [by exists []| |by exists []].
  pose proof (runToolCalls_log (tc :: tcs) (allMessages ++ [Assistant msg]) w1)
    as Htools.
  destruct (runToolCalls _ (tc :: tcs) w1) as [[w2 log2] [all2|]].
  - destruct Htools as [-> (results & Hlen & ->)].
    specialize (IH ((allMessages ++ [Assistant msg])
                    ++ toolMessages (tc :: tcs) results) w2).
    destruct (turns n _ w2) as [[w3 log3] r]. cbn [fst snd] in *.
    rewrite !requests_app, requests_toolRuns. cbn [app].
    change (requests [ChatCompletion allMessages]) with [allMessages].
    cbn [app].
    destruct IH as [[_ ->]|(rest & -> & Hch)]; [by exists []|].
    eexists. split; [reflexivity|]. split; [|exact Hch].
    exists msg, (tc :: tcs), results.
    split; [done|]. split; [done|]. split; [done|]. by rewrite <- app_assoc.
  - destruct Htools as (k & _ & ->). cbn [fst snd].
    rewrite requests_app, requests_toolRuns. by exists [].
Qed.

(** X13. The requests of one generation follow the tool protocol.
    The first request holds the system prompt and then the history,
    turn by turn; each later request is the one before it with the
    assistant message that asked for tools appended, followed by one
    tool message for each call asked for, in order and under the id of
    its call. Between two requests each of these calls was run once,
    in order, with its name and with its arguments or, when it has
    none, the text of an empty object. This holds of every
    generation, also of one that ends by an exception. *)
Theorem tool_protocol messages w :
  let log := (nehaResponseWithHistory messages w).1.2 in
  (∃ rest,
     requests log = (System NEHA_SYSTEM_PROMPT :: map Turn messages) :: rest
     ∧ chained followsFrom (requests log))
  ∧ ∀ allMessages tcs w0,
      match runToolCalls allMessages tcs w0 with
      | (_, runs, Returned all') =>
          runs = map toolRun tcs
          ∧ ∃ results, length results = length tcs
                       ∧ all' = allMessages ++ toolMessages tcs results
      | (_, runs, Thrown) =>
          ∃ n, n < length tcs ∧ runs = map toolRun (take (S n) tcs)
      end.
Proof.
  split; [|intros; apply runToolCalls_log].
  destruct (turns_requests 8 (System NEHA_SYSTEM_PROMPT :: map Turn messages) w)
    as [[? _]|(rest & Hreq & Hch)]; [done|].
  exists rest. unfold nehaResponseWithHistory. cbn zeta in Hreq.
  by rewrite Hreq.
Qed.

End GeneratorProtocol.

(** ** Speech synthesis and its fallbacks *)

Section SpeechFacts.
Import Speech.
Context {World : Type} `{Remote World}.

Lemma encodableFrom_cut h l : ∀ b,
  isHigh h = true → encodableFrom b (l ++ [h]) = false.
Proof.
  intros b Hh.
  assert (Hl : isLow h = false).
  { unfold isHigh, isLow in *. apply andb_true_iff in Hh as [_ H2].
    apply N.leb_le in H2. apply andb_false_iff. left. apply N.leb_gt. lia. }
  revert b. induction l as [|c l IH]; intros b.
  - cbn. destruct b; [by rewrite Hl|by rewrite Hh].
  - cbn. destruct b.
    + by rewrite IH, andb_false_r.
    + destruct (isHigh c); [apply IH|]. by rewrite IH, andb_false_r.
Qed.

Lemma chunksFrom_end lang t i chunks w :
  length t ≤ i → chunksFrom lang t i chunks w = (w, [], Ok (concat chunks)).
Proof.
  intros Hi. rewrite chunksFrom_equation_1.
  destruct (decide (i < length t)); [lia|reflexivity].
Qed.

Lemma chunksFrom_next lang t i chunks w :
  i < length t →
  chunksFrom lang t i chunks w
  = let part := take maxChunk (drop i t) in
    if negb (encodable part) then (w, [], Err URIError) else
    match fetch lang part w with
    | (w1, Err err) => (w1, [Fetch lang part], Err err)
    | (w1, Ok res) =>
        if negb (ok res)
        then (w1, [Fetch lang part], Err (GoogleStatus (status res))) else
        match arrayBuffer res with
        | Err err => (w1, [Fetch lang part], Err err)
        | Ok buf =>
            if decide (length buf < 100)
            then (w1, [Fetch lang part], Err TooSmall) else
            let '(w2, log, r) :=
              chunksFrom lang t (i + maxChunk) (chunks ++ [buf]) w1 in
            (w2, Fetch lang part :: log, r)
        end
    end.
Proof.
  intros Hi. rewrite chunksFrom_equation_1.
  destruct (decide (i < length t)); [reflexivity|lia].
Qed.

Lemma chunksFrom_slices lang t : ∀ n i chunks w w' log r,
  length t - i ≤ n →
  chunksFrom lang t i chunks w = (w', log, r) →
  log = map (λ f, Fetch f.1 f.2) (fetched log)
  ∧ Forall (λ f, f.1 = lang ∧ 0 < length f.2 ≤ 180) (fetched log)
  ∧ concat (fetched log).*2 `prefix_of` drop i t
  ∧ ∀ buf, r = Ok buf →
      concat (fetched log).*2 = drop i t
      ∧ length (fetched log) = (length t - i + 179) / 180
      ∧ length (concat chunks) + 100 * length (fetched log) ≤ length buf.
Proof.
  induction n as [|n IH]; intros i chunks w w' log r Hn Hrun.
  - rewrite chunksFrom_end in Hrun by lia. injection Hrun as <- <- <-.
    cbn. rewrite drop_ge by lia. split; [done|]. split; [done|].
    split; [done|]. intros buf [= <-].
    replace (length t - i) with 0 by lia. cbn. split; [done|]. lia.
  - destruct (decide (i < length t)) as [Hi|Hi];
      [|rewrite chunksFrom_end in Hrun by lia; injection Hrun as <- <- <-;
        cbn; rewrite drop_ge by lia; split; [done|]; split; [done|];
        split; [done|]; intros buf [= <-];
        replace (length t - i) with 0 by lia; cbn; split; [done|]; lia].
    rewrite chunksFrom_next in Hrun by done. cbn zeta in Hrun.
    set (part := take maxChunk (drop i t)) in *.
    assert (Hpart : 0 < length part ≤ 180).
    { subst part. rewrite length_take, length_drop. unfold maxChunk. lia. }
    assert (Hpre : part `prefix_of` drop i t) by apply prefix_take.
    assert (Hone : ∀ w1 e,
              (w1, [Fetch lang part], Err e) = (w', log, r) →
              log = map (λ f, Fetch f.1 f.2) (fetched log)
              ∧ Forall (λ f, f.1 = lang ∧ 0 < length f.2 ≤ 180) (fetched log)
              ∧ concat (fetched log).*2 `prefix_of` drop i t
              ∧ ∀ buf, r = Ok buf →
                  concat (fetched log).*2 = drop i t
                  ∧ length (fetched log) = (length t - i + 179) / 180
                  ∧ length (concat chunks) + 100 * length (fetched log)
                    ≤ length buf).
    { intros w1 e [= <- <- <-]. cbn. rewrite app_nil_r.
      split; [done|]. split; [by apply Forall_singleton|]. by split. }
    destruct (encodable part).
    2:{ cbn in Hrun. injection Hrun as <- <- <-. cbn.
        split; [done|]. split; [done|]. split; [apply prefix_nil|done]. }
    cbn [negb] in Hrun.
    destruct (fetch lang part w) as [w1 [res|e]]; [|by eapply Hone].
    destruct (ok res); cbn [negb] in Hrun; [|by eapply Hone].
    destruct (arrayBuffer res) as [buf|e]; [|by eapply Hone].
    destruct (decide (length buf < 100)) as [Hsmall|Hbig]; [by eapply Hone|].
    destruct (chunksFrom lang t (i + maxChunk) (chunks ++ [buf]) w1)
      as [[w2 log2] r2] eqn:Hrest.
    injection Hrun as <- <- <-. clear Hone.
    assert (Hle : length t - (i + maxChunk) ≤ n) by (unfold maxChunk; lia).
    destruct (IH _ _ _ _ _ _ Hle Hrest) as (Hv & Hf & Hp & Hok).
    assert (Hdrop : drop (i + maxChunk) t = drop maxChunk (drop i t))
      by (by rewrite drop_drop).
    assert (Hsplit : drop i t = part ++ drop (i + maxChunk) t)
      by (by rewrite Hdrop; subst part; rewrite take_drop).
    change (fetched (Fetch lang part :: log2)) with ((lang, part) :: fetched log2).
    rewrite fmap_cons. cbn [fst snd concat length map].
    split; [by f_equal|]. split; [by apply Forall_cons|].
    split; [rewrite Hsplit; by apply prefix_app|].
    intros out ->. destruct (Hok out eq_refl) as (Hc & Hl & Hb).
    split; [rewrite fmap_cons; cbn [snd concat]; by rewrite Hc|]. split.
    + rewrite Hl. unfold maxChunk.
      destruct (decide (i + 180 ≤ length t)) as [Hfull|Hlast].
      * replace (length t - i + 179)
          with (length t - (i + 180) + 179 + 1 * 180) by lia.
        rewrite Nat.div_add by lia. lia.
      * replace (length t - (i + 180)) with 0 by lia.
        change ((0 + 179) `div` 180) with 0.
        apply (Nat.div_unique _ _ _ (length t - i - 1)); lia.
    + rewrite concat_app, length_app in Hb. cbn in Hb.
      rewrite app_nil_r in Hb. lia.
Qed.

(** X14. The free fallback cuts the trimmed text in slices of 180
    code units and asks for them in order, each in the same language;
    a blank text is refused before any request. When it returns, the
    slices asked for add up to the trimmed text, there are
    ceil(length / 180) of them, and the audio holds at least 100 bytes
    for each: it is never empty. When it throws, the slices asked for
    so far are a prefix of the text. *)
Theorem fallback_slices text preferredLang w w' log r :
  googleTtsFallback text preferredLang w = (w', log, r) →
  let t := JS.trim text in
  log = map (λ f, Fetch f.1 f.2) (fetched log)
  ∧ Forall (λ f, f.1 = language t preferredLang ∧ 0 < length f.2 ≤ 180)
      (fetched log)
  ∧ concat (fetched log).*2 `prefix_of` t
  ∧ (t = [] → log = [] ∧ r = Err EmptyText)
  ∧ ∀ buf, r = Ok buf →
      concat (fetched log).*2 = t
      ∧ length (fetched log) = (length t + 179) / 180
      ∧ 0 < length (fetched log)
      ∧ 100 * length (fetched log) ≤ length buf.
Proof.
  intros Hrun t. unfold googleTtsFallback in Hrun. fold t in Hrun.
  destruct t as [|c t'] eqn:Ht.
  - cbn in Hrun. injection Hrun as <- <- <-. cbn.
    split; [done|]. split; [done|]. split; [done|]. by split.
  - cbn [JS.truthy negb] in Hrun.
    assert (Hle : length (c :: t') - 0 ≤ length (c :: t')) by lia.
    destruct (chunksFrom_slices _ _ _ _ _ _ _ _ _ Hle Hrun)
      as (Hv & Hf & Hp & Hok).
    rewrite drop_0 in Hp. split; [done|]. split; [done|]. split; [done|].
    split; [done|]. intros buf ->.
    destruct (Hok buf eq_refl) as (Hc & Hl & Hb).
    rewrite drop_0 in Hc. rewrite Nat.sub_0_r in Hl. cbn [concat length] in Hb.
    split; [done|]. split; [done|]. split; [|lia].
    rewrite Hl. cbn [length].
    apply (Nat.div_str_pos (S (length t') + 179) 180). lia.
Qed.

Lemma chunksFrom_cut lang t c : ∀ k i chunks w,
  t !! (i + 180 * k + 179) = Some c → isHigh c = true →
  ∃ w' log err, chunksFrom lang t i chunks w = (w', log, Err err)
                ∧ (k = 0 → w' = w ∧ log = [] ∧ err = URIError).
Proof.
  induction k as [|k IH]; intros i chunks w Hc Hh.
  - pose proof (lookup_lt_Some _ _ _ Hc) as Hlt.
    rewrite chunksFrom_next by lia. cbn zeta.
    assert (take maxChunk (drop i t) = take 179 (drop i t) ++ [c]) as ->.
    { unfold maxChunk. apply take_S_r. rewrite lookup_drop. rewrite <- Hc.
      f_equal. lia. }
    unfold encodable. rewrite encodableFrom_cut by done. cbn.
    by eexists _, _, _.
  - pose proof (lookup_lt_Some _ _ _ Hc) as Hlt.
    rewrite chunksFrom_next by lia. cbn zeta.
    destruct (encodable _); cbn [negb]; [|by eexists _, _, _].
    destruct (fetch lang _ w) as [w1 [res|e]]; [|by eexists _, _, _].
    destruct (ok res); cbn [negb]; [|by eexists _, _, _].
    destruct (arrayBuffer res) as [buf|e]; [|by eexists _, _, _].
    destruct (decide (length buf < 100)); [by eexists _, _, _|].
    destruct (IH (i + maxChunk) (chunks ++ [buf]) w1) as (w2 & log2 & e & -> & _);
      [|done|by eexists _, _, _].
    rewrite <- Hc. f_equal. unfold maxChunk. lia.
Qed.

(** X15. The slices are cut by code units, and [encodeURIComponent]
    throws on half a surrogate pair: when the unit at an index 179,
    359, ... of the trimmed text is a high surrogate, the fallback
    returns no audio, although the pair is whole in the text; when it
    is the unit 179, [URIError] is thrown before any request. *)
Theorem fallback_cut_pair text preferredLang w k c :
  JS.trim text !! (180 * k + 179) = Some c → isHigh c = true →
  ∃ w' log err,
    googleTtsFallback text preferredLang w = (w', log, Err err)
    ∧ (k = 0 → w' = w ∧ log = [] ∧ err = URIError).
Proof.
  intros Hc Hh. unfold googleTtsFallback.
  destruct (JS.trim text) as [|u t] eqn:Ht; [done|]. cbn [JS.truthy negb].
  apply (chunksFrom_cut _ _ c k 0); [exact Hc|exact Hh].
Qed.

Lemma voices_app log1 log2 : voices (log1 ++ log2) = voices log1 ++ voices log2.
Proof. apply omap_app. Qed.

Lemma fetched_app log1 log2 : fetched (log1 ++ log2) = fetched log1 ++ fetched log2.
Proof. apply omap_app. Qed.

Lemma voices_fetches fs : voices (map (λ f, Fetch f.1 f.2) fs) = [].
Proof. induction fs as [|f fs IH]; [done|]. exact IH. Qed.

Lemma fetched_fetches fs : fetched (map (λ f, Fetch f.1 f.2) fs) = fs.
Proof. induction fs as [|[l p] fs IH]; [done|]. cbn. f_equal. exact IH. Qed.

Lemma googleTtsFallback_log text preferredLang w w' log r :
  googleTtsFallback text preferredLang w = (w', log, r) →
  log = map (λ f, Fetch f.1 f.2) (fetched log)
  ∧ Forall (λ f, f.1 = language (JS.trim text) preferredLang) (fetched log)
  ∧ ∀ buf, r = Ok buf → 100 ≤ length buf.
Proof.
  intros Hrun. unfold googleTtsFallback in Hrun.
  destruct (JS.trim text) as [|c t] eqn:Ht.
  - cbn in Hrun. by injection Hrun as <- <- <-.
  - cbn [JS.truthy negb] in Hrun.
    assert (Hle : length (c :: t) - 0 ≤ length (c :: t)) by lia.
    destruct (chunksFrom_slices _ _ _ _ _ _ _ _ _ Hle Hrun)
      as (Hlog & Hf & _ & Hok).
    split; [done|]. split.
    + eapply Forall_impl; [exact Hf|]. by intros f [-> _].
    + intros buf ->. destruct (Hok buf eq_refl) as (_ & Hl & Hb).
      cbn [length] in Hl. rewrite Nat.sub_0_r in Hl.
      assert (0 < (S (length t) + 179) / 180)
        by (apply Nat.div_str_pos; lia).
      cbn [concat length] in Hb. lia.
Qed.

Lemma synthesize_log voiceId text w :
  (synthesize voiceId text w).1.2 = [Convert voiceId text].
Proof.
  unfold synthesize.
  by destruct (convert voiceId text w) as [w1 [[b|b|cs [e|]]|e]].
Qed.

Lemma textToSpeech_unfold text voiceIdOverride w :
  textToSpeech text voiceIdOverride w
  = match synthesize (voiceOf voiceIdOverride) text w with
    | (w1, log1, Ok result) => (w1, log1, Ok result)
    | (w1, log1, Err err) =>
        if decide (statusCode err = Some 402%Z
                   ∧ voiceOf voiceIdOverride ≠ FREE_TIER_VOICE_ID)
        then
          let '(w2, log2, r) := textToSpeech text (Some FREE_TIER_VOICE_ID) w1 in
          (w2, log1 ++ log2, r)
        else if decide (statusCode err = Some 401%Z ∨ statusCode err = Some 403%Z)
        then
          let '(w2, log2, r) := googleTtsFallback text (JS.lit "hi") w1 in
          (w2, log1 ++ log2, r)
        else (w1, log1, Err err)
    end.
Proof.
  rewrite textToSpeech_equation_1.
  destruct (synthesize (voiceOf voiceIdOverride) text w) as [[w1 log1] [b|e]];
    [reflexivity|].
  cbn. by destruct (decide _).
Qed.

Lemma textToSpeech_attempts text : ∀ n voiceIdOverride w w' log r,
  retriesLeft voiceIdOverride ≤ n →
  textToSpeech text voiceIdOverride w = (w', log, r) →
  (voices log = [voiceOf voiceIdOverride]
   ∨ (voiceOf voiceIdOverride ≠ FREE_TIER_VOICE_ID
      ∧ voices log = [voiceOf voiceIdOverride; FREE_TIER_VOICE_ID]))
  ∧ log = map (λ v, Convert v text) (voices log)
          ++ map (λ f, Fetch f.1 f.2) (fetched log)
  ∧ Forall (λ f, f.1 = language (JS.trim text) (JS.lit "hi")) (fetched log)
  ∧ ∀ buf, r = Ok buf → fetched log ≠ [] → 100 ≤ length buf.
Proof.
  induction n as [|n IH]; intros o w w' log r Hn Hrun;
    rewrite textToSpeech_unfold in Hrun;
    pose proof (synthesize_log (voiceOf o) text w) as Hlog1;
    destruct (synthesize (voiceOf o) text w) as [[w1 log1] [b|e]];
    cbn [fst snd] in Hlog1; subst log1;
    try (injection Hrun as <- <- <-; cbn; split; [by left|];
         split; [done|]; split; [done|]; by intros).
  - destruct (decide (_ ∧ _)) as [[_ Hv]|_].
    { unfold retriesLeft in Hn. rewrite decide_False in Hn by done. lia. }
    destruct (decide (_ ∨ _)) as [_|_];
      [|injection Hrun as <- <- <-; cbn; split; [by left|];
        split; [done|]; split; [done|]; by intros].
    destruct (googleTtsFallback text (JS.lit "hi") w1) as [[w2 log2] r2] eqn:Hg.
    injection Hrun as <- <- <-.
    destruct (googleTtsFallback_log _ _ _ _ _ _ Hg) as (Hl2 & Hf2 & Hb2).
    assert (voices log2 = []) as Hv2 by (rewrite Hl2; apply voices_fetches).
    change (voices (Convert (voiceOf o) text :: log2))
      with (voiceOf o :: voices log2).
    change (fetched (Convert (voiceOf o) text :: log2)) with (fetched log2).
    rewrite Hv2. cbn [map app].
    split; [by left|]. split; [by f_equal|].
    split; [done|]. intros buf -> _. by apply Hb2.
  - destruct (decide (_ ∧ _)) as [[_ Hv]|_].
    + destruct (textToSpeech text (Some FREE_TIER_VOICE_ID) w1)
        as [[w2 log2] r2] eqn:Hretry.
      injection Hrun as <- <- <-.
      assert (Hfree : retriesLeft (Some FREE_TIER_VOICE_ID) ≤ n).
      { unfold retriesLeft. cbn. rewrite decide_True by done. lia. }
      destruct (IH _ _ _ _ _ Hfree Hretry) as (Hv2 & Hl2 & Hf2 & Hb2).
      assert (voices log2 = [FREE_TIER_VOICE_ID]) as Hv2'.
      { destruct Hv2 as [Hv2|[Hne _]]; [exact Hv2|by destruct Hne]. }
      change (voices (Convert (voiceOf o) text :: log2))
        with (voiceOf o :: voices log2).
      change (fetched (Convert (voiceOf o) text :: log2)) with (fetched log2).
      split; [right; split; [done|by rewrite Hv2']|].
      split; [cbn [map app]; by f_equal|]. split; [done|].
      intros buf -> Hne. by apply Hb2.
    + destruct (decide (_ ∨ _)) as [_|_];
        [|injection Hrun as <- <- <-; cbn; split; [by left|];
          split; [done|]; split; [done|]; by intros].
      destruct (googleTtsFallback text (JS.lit "hi") w1) as [[w2 log2] r2] eqn:Hg.
      injection Hrun as <- <- <-.
      destruct (googleTtsFallback_log _ _ _ _ _ _ Hg) as (Hl2 & Hf2 & Hb2).
      assert (voices log2 = []) as Hv2 by (rewrite Hl2; apply voices_fetches).
      change (voices (Convert (voiceOf o) text :: log2))
        with (voiceOf o :: voices log2).
      change (fetched (Convert (voiceOf o) text :: log2)) with (fetched log2).
      rewrite Hv2. cbn [map app].
      split; [by left|]. split; [by f_equal|].
      split; [done|]. intros buf -> _. by apply Hb2.
Qed.

(** X16. [textToSpeech] asks ElevenLabs once, or twice: the second
    time only after a refusal of the first, and then with the free
    tier voice, which was not the voice of the first. With the free
    tier voice (the one of the configuration when the environment
    names none) it asks once. Every request carries the text as it
    was given. Google is asked after the last of these requests only,
    slice by slice, in English for a text of Basic Latin and in Hindi
    otherwise; audio that comes from there holds 100 bytes at least. *)
Theorem synthesis_attempts text voiceIdOverride w w' log r :
  textToSpeech text voiceIdOverride w = (w', log, r) →
  (voices log = [voiceOf voiceIdOverride]
   ∨ (voiceOf voiceIdOverride ≠ FREE_TIER_VOICE_ID
      ∧ voices log = [voiceOf voiceIdOverride; FREE_TIER_VOICE_ID]))
  ∧ log = map (λ v, Convert v text) (voices log)
          ++ map (λ f, Fetch f.1 f.2) (fetched log)
  ∧ Forall (λ f, f.1 = language (JS.trim text) (JS.lit "hi")) (fetched log)
  ∧ (∀ buf, r = Ok buf → fetched log ≠ [] → 100 ≤ length buf)
  ∧ (env_ELEVENLABS_VOICE_ID = None → voiceIdOverride = None →
     voices log = [FREE_TIER_VOICE_ID]).
Proof.
  intros Hrun.
  destruct (textToSpeech_attempts text 1 voiceIdOverride w w' log r)
    as (Hv & Hl & Hf & Hb); [unfold retriesLeft; case_decide; lia|exact Hrun|].
  split; [exact Hv|]. split; [exact Hl|]. split; [exact Hf|].
  split; [exact Hb|]. intros Henv ->.
  assert (voiceOf None = FREE_TIER_VOICE_ID) as Hfree.
  { unfold voiceOf, ELEVENLABS_VOICE_ID. cbn. by rewrite Henv. }
  destruct Hv as [Hv|[Hne _]]; [by rewrite <- Hfree|by destruct Hne].
Qed.

End SpeechFacts.

Lemma fallback_slices_witness :
  ∃ w' log r,
    @Speech.googleTtsFallback Z refusing
      (32%N :: replicate 200 97%N ++ [32%N]) (JS.lit "hi") 0%Z = (w', log, r)
    ∧ length (fetched log) = 2
    ∧ log = map (λ f, Speech.Fetch f.1 f.2) (fetched log).
Proof.
  eexists _, _, _. split; [vm_compute; reflexivity|]. split; [reflexivity|].
  refine (proj1 (@fallback_slices Z refusing
                   (32%N :: replicate 200 97%N ++ [32%N]) (JS.lit "hi") 0%Z
                   _ _ _ _)).
  vm_compute. reflexivity.
Defined.

Lemma fallback_cut_pair_witness :
  Speech.encodable (replicate 179 97%N ++ [55357%N; 56832%N]) = true
  ∧ ∃ w' log err,
      @Speech.googleTtsFallback Z refusing
        (replicate 179 97%N ++ [55357%N; 56832%N]) (JS.lit "hi") 0%Z
      = (w', log, Speech.Err err)
      ∧ (0 = 0 → w' = 0%Z ∧ log = [] ∧ err = Speech.URIError).
Proof.
  split; [vm_compute; reflexivity|].
  apply (@fallback_cut_pair Z refusing
           (replicate 179 97%N ++ [55357%N; 56832%N]) (JS.lit "hi") 0%Z
           0 55357%N); vm_compute; reflexivity.
Defined.

Lemma synthesis_attempts_witness :
  ∃ w' log r,
    @Speech.textToSpeech Z refusing (JS.lit "Ji, zaroor.") None 402%Z
    = (w', log, r)
    ∧ voices log
      = [JS.lit "pNInz6obpgDQGcFmaJgB"; Speech.FREE_TIER_VOICE_ID]
    ∧ log = map (λ v, Speech.Convert v (JS.lit "Ji, zaroor.")) (voices log)
            ++ map (λ f, Speech.Fetch f.1 f.2) (fetched log).
Proof.
  eexists _, _, _. split; [vm_compute; reflexivity|]. split; [reflexivity|].
  refine (proj1 (proj2 (@synthesis_attempts Z refusing
                          (JS.lit "Ji, zaroor.") None 402%Z _ _ _ _))).
  vm_compute. reflexivity.
Defined.

(** ** Transcoding *)

Section TranscodeFacts.
Import Transcode.

Lemma handle_settled evs : ∀ t,
  promise t ≠ Pending → promise (handle evs t) = promise t.
Proof.
  induction evs as [|ev evs IH]; intros t Ht; [done|].
  change (handle (ev :: evs) t) with (handle evs (onEvent ev t)).
  assert (Hsettle : ∀ p, settle p t = t).
  { intros p. unfold settle. by destruct (promise t). }
  assert (promise (onEvent ev t) = promise t) as Hsame.
  { destruct ev as [|[c|]|chunk|]; cbn; rewrite ?Hsettle;
      repeat case_match; rewrite ?Hsettle; done. }
  rewrite IH; [done|]. by rewrite Hsame.
Qed.

Lemma outputOf_data chunk evs :
  outputOf (StdoutData chunk :: evs) = chunk ++ outputOf evs.
Proof. reflexivity. Qed.

Lemma handle_resolves evs : ∀ t out,
  promise t = Pending → listening t = true →
  promise (handle evs t) = Resolved out
  ↔ ∃ before after,
      evs = before ++ StdoutEnd :: after
      ∧ Forall (λ ev, fails ev = false ∧ isEnd ev = false) before
      ∧ out = concat (chunks t) ++ outputOf before
      ∧ out ≠ [].
Proof.
  induction evs as [|ev evs IH]; intros t out Hp Hl.
  - cbn. rewrite Hp. split; [done|].
    intros (before & after & Heq & _). by destruct before.
  - change (handle (ev :: evs) t) with (handle evs (onEvent ev t)).
    assert (Hskip : ∀ t',
              promise t' = Pending → listening t' = true →
              fails ev = false → isEnd ev = false →
              (∀ b, concat (chunks t') ++ outputOf b
                    = concat (chunks t) ++ outputOf (ev :: b)) →
              promise (handle evs t') = Resolved out
              ↔ ∃ before after,
                  ev :: evs = before ++ StdoutEnd :: after
                  ∧ Forall (λ ev, fails ev = false ∧ isEnd ev = false) before
                  ∧ out = concat (chunks t) ++ outputOf before
                  ∧ out ≠ []).
    { intros t' Hp' Hl' Hf He Hout. rewrite (IH t' out Hp' Hl'). split.
      - intros (b & a & -> & Hall & -> & Hne).
        exists (ev :: b), a. split; [done|]. split; [by constructor|].
        by rewrite <- Hout.
      - intros (b & a & Heq & Hall & -> & Hne).
        destruct b as [|e b]; [injection Heq as -> _; done|].
        injection Heq as <- ->. apply Forall_cons in Hall as [_ Hall].
        exists b, a. split; [done|]. split; [done|]. by rewrite Hout. }
    assert (Hstop : ∀ t',
              promise t' ≠ Pending → (∀ o, promise t' ≠ Resolved o) →
              fails ev = true ∨ (isEnd ev = true ∧ concat (chunks t) = []) →
              promise (handle evs t') = Resolved out
              ↔ ∃ before after,
                  ev :: evs = before ++ StdoutEnd :: after
                  ∧ Forall (λ ev, fails ev = false ∧ isEnd ev = false) before
                  ∧ out = concat (chunks t) ++ outputOf before
                  ∧ out ≠ []).
    { intros t' Hp' Hno Hwhy. rewrite (handle_settled evs t' Hp'). split.
      - intros Hr. by destruct (Hno out).
      - intros (b & a & Heq & Hall & -> & Hne). exfalso.
        destruct b as [|e b].
        + injection Heq as -> _. destruct Hwhy as [Hf|[_ Hnil]]; [done|].
          rewrite Hnil in Hne. done.
        + injection Heq as <- _. apply Forall_cons in Hall as [[Hf He] _].
          destruct Hwhy as [Hf'|[He' _]]; congruence. }
    destruct ev as [|[c|]|chunk|].
    + apply Hstop; [| |by left]; cbn; unfold settle; rewrite Hp; done.
    + cbn [onEvent]. destruct (decide (c ≠ 0%Z)) as [Hc|Hc].
      * apply Hstop; [| |left; cbn; by apply bool_decide_eq_true];
          unfold settle; rewrite Hp; done.
      * apply Hskip; try done. cbn. by apply bool_decide_eq_false.
    + by apply Hskip.
    + cbn [onEvent]. rewrite Hl. apply Hskip; try done; cbn.
      intros b. rewrite concat_app, <- app_assoc. cbn.
      by rewrite app_nil_r.
    + cbn [onEvent]. rewrite Hl. cbn zeta.
      destruct (decide (length (concat (chunks t)) = 0)) as [Hz|Hnz].
      * apply Hstop; [| |right; split; [done|by apply nil_length_inv]];
          unfold settle; rewrite Hp; done.
      * rewrite handle_settled by (unfold settle; rewrite Hp; done).
        unfold settle. rewrite Hp. cbn. split.
        -- intros [= <-]. exists [], evs. split; [done|]. split; [done|].
           cbn. rewrite app_nil_r. split; [done|].
           intros Hnil. by rewrite Hnil in Hnz.
        -- intros (b & a & Heq & Hall & -> & Hne).
           destruct b as [|e b].
           ++ cbn. by rewrite app_nil_r.
           ++ injection Heq as <- _. apply Forall_cons in Hall as [[_ He] _].
              done.
Qed.

(** X17. [mp3ToMulaw8k] resolves exactly when the output stream of
    ffmpeg ends, for the first time, after some output was read and
    before the process reported an error or an exit code other than
    0; it resolves with the output read until then. What comes after
    is ignored: an exit code other than 0 that is reported after the
    end of the output leaves the promise resolved. An empty input is
    refused without a process being started. *)
Theorem transcode_resolves mp3Buffer evs out :
  mp3Buffer ≠ [] →
  (mp3ToMulaw8k mp3Buffer true).2 = [Spawn; StdinWrite mp3Buffer; StdinEnd]
  ∧ (promise (handle evs (mp3ToMulaw8k mp3Buffer true).1) = Resolved out
     ↔ ∃ before after,
         evs = before ++ StdoutEnd :: after
         ∧ Forall (λ ev, fails ev = false ∧ isEnd ev = false) before
         ∧ out = outputOf before
         ∧ out ≠ [])
  ∧ (∀ pipes,
       mp3ToMulaw8k [] pipes
       = ({| promise := Rejected EmptyInput; chunks := []; listening := false |},
          [])
       ∧ promise (handle evs (mp3ToMulaw8k [] pipes).1) = Rejected EmptyInput).
Proof.
  intros Hne. unfold mp3ToMulaw8k.
  destruct (decide (length mp3Buffer = 0)) as [Hz|_];
    [by apply nil_length_inv in Hz|].
  cbn [negb fst snd]. split; [done|]. split.
  - by rewrite handle_resolves.
  - intros pipes. cbn. split; [done|]. by rewrite handle_settled.
Qed.

Lemma transcode_resolves_witness :
  Transcode.promise
    (Transcode.handle
       [StdoutData [x01; x02]; StdoutEnd; Close (Some 1%Z)]
       (Transcode.mp3ToMulaw8k [x49; x44; x33] true).1)
  = Resolved [x01; x02].
Proof.
  apply (proj1 (proj2 (transcode_resolves [x49; x44; x33]
                         [StdoutData [x01; x02]; StdoutEnd; Close (Some 1%Z)]
                         [x01; x02] ltac:(discriminate)))).
  exists [StdoutData [x01; x02]], [Close (Some 1%Z)].
  split; [reflexivity|]. split; [by repeat constructor|].
  split; [reflexivity|discriminate].
Defined.

End TranscodeFacts.
